(** * VideoTreeBuilder: tree store, layout engine and connector curves

    A shallow embedding of the React component [VideoTreeBuilder] and the
    properties its specification states about it.

    Modelling conventions.
    - The component state [nodes : Record<string, VideoNode>] is a
      [gmap string VideoNode]; [Object.keys(nodes).length] is [size nodes].
    - A JavaScript [number] that holds a coordinate is an exact rational
      ([Q]); [level] only ever holds integers and is a [Z].  Comparisons of
      coordinates are stated with [==] ([Qeq]).
    - [Date.now()] and [URL.createObjectURL] read the environment: their
      results are arguments of the handlers that call them.
    - A handler either calls [setNodes], returns without an update, or
      throws; see [Outcome].
    - [calculateTreeLayout] recurses over ids, not over a data structure:
      it takes fuel, and [None] stands for the exhausted call stack. *)

From Stdlib Require Import Ascii QArith Qabs Qminmax Lqa.
From stdpp Require Import gmap strings list fin_maps pretty.

Set Warnings "-register-all".

Open Scope string_scope.
Open Scope Z_scope.

(** ** Data model *)

Record VideoNode := mkVideoNode {
  id : string;
  videoUrl : option string;
  x : Q;
  y : Q;
  color : string;
  parentId : option string;
  children : list string;
  level : Z
}.

Abbreviation Nodes := (gmap string VideoNode).

Definition COLORS : list string :=
  [ "#9b87f5"; "#D946EF"; "#F97316"; "#0EA5E9";
    "#8B5CF6"; "#EC4899"; "#14B8A6"; "#F59E0B" ].

Definition LEVEL_HEIGHT : Q := 220 # 1.
Definition NODE_SPACING : Q := 200 # 1.

(** [COLORS[i]]; the index is always reduced modulo the length, so the
    [undefined] of an out-of-range read never arises. *)
Definition COLORS_at (i : nat) : string := default "" (COLORS !! i).

(** The initial state of [useState], also installed by the reset button. *)
Definition root_node : VideoNode :=
  {| id := "root"; videoUrl := None; x := 600 # 1; y := 100 # 1;
     color := COLORS_at 0; parentId := None; children := []; level := 0 |}.

Definition reset : Nodes := {[ "root" := root_node ]}.

(** ** Layout engine *)

(** [node.x = vx; node.y = 100 + level * LEVEL_HEIGHT; node.level = level]:
    the three assignments mutate the object stored under [nodeId]. *)
Definition place (n : VideoNode) (vx : Q) (lvl : Z) : VideoNode :=
  {| id := id n; videoUrl := videoUrl n;
     x := vx; y := ((100 # 1) + inject_Z lvl * LEVEL_HEIGHT)%Q;
     color := color n; parentId := parentId n; children := children n;
     level := lvl |}.

(** [childPositions.reduce((a, b) => a + b, 0) / childPositions.length] *)
Definition mean (childPositions : list Q) : Q :=
  (fold_left Qplus childPositions (0 # 1)
   / inject_Z (Z.of_nat (length childPositions)))%Q.

(** The value pushed on [childPositions] for a child laid out from cursor
    [currentX] to cursor [childEndX]. *)
Definition childPosition (currentX childEndX : Q) : Q :=
  ((currentX + childEndX - NODE_SPACING) / (2 # 1))%Q.

(** The [forEach] over [node.children], given the recursive call [layout]:
    it threads the mapping and [currentX] and collects [childPositions]. *)
Fixpoint layoutChildren
    (layout : string → Nodes → Q → option (Nodes * Q))
    (kids : list string) (nodesMap : Nodes) (currentX : Q)
    (childPositions : list Q) : option (Nodes * Q * list Q) :=
  match kids with
  | [] => Some (nodesMap, currentX, childPositions)
  | childId :: rest =>
      match layout childId nodesMap currentX with
      | None => None
      | Some (nodesMap', childEndX) =>
          layoutChildren layout rest nodesMap' childEndX
            (childPositions ++ [childPosition currentX childEndX])
      end
  end.

Fixpoint calculateTreeLayout (fuel : nat) (nodeId : string) (nodesMap : Nodes)
    (startX : Q) (level : Z) : option (Nodes * Q) :=
  match fuel with
  | O => None
  | S fuel' =>
      match nodesMap !! nodeId with
      | None => Some (nodesMap, startX)
      | Some node =>
          match children node with
          | [] =>
              Some (alter (fun n => place n startX level) nodeId nodesMap,
                    (startX + NODE_SPACING)%Q)
          | kids =>
              match layoutChildren
                      (fun childId m cur =>
                         calculateTreeLayout fuel' childId m cur (level + 1))
                      kids nodesMap startX [] with
              | None => None
              | Some (nodesMap', currentX, childPositions) =>
                  let vx := match childPositions with
                            | [] => startX
                            | _ => mean childPositions
                            end in
                  Some (alter (fun n => place n vx level) nodeId nodesMap',
                        currentX)
              end
          end
      end
  end.

(** [recalculateLayout]: the shallow copy shares every node object with its
    argument, so the result is the argument with the coordinates rewritten.
    The recursion on an acyclic mapping is never deeper than the number of
    nodes, which is the fuel given here. *)
Definition recalculateLayout (nodesMap : Nodes) : option Nodes :=
  fst <$> calculateTreeLayout (S (size nodesMap)) "root" nodesMap (100 # 1) 0.

(** ** Tree store *)

Inductive JsError :=
  | TypeError    (* a property read on [undefined] *)
  | RangeError.  (* the call stack is exhausted *)

(** What a handler does to the component state. *)
Inductive Outcome :=
  | SetNodes (nodesMap : Nodes)  (* [setNodes] is called with this mapping *)
  | NoUpdate                     (* the handler returns, state untouched *)
  | Throw (e : JsError)          (* the handler throws, state untouched *)
  | Untyped.                     (* [setNodes] is called with a mapping
                                    that holds an object that is no
                                    [VideoNode]: outside this model *)

(** [{ ...n, children: cs }] *)
Definition with_children (n : VideoNode) (cs : list string) : VideoNode :=
  {| id := id n; videoUrl := videoUrl n; x := x n; y := y n;
     color := color n; parentId := parentId n; children := cs;
     level := level n |}.

(** [{ ...n, videoUrl }] *)
Definition with_videoUrl (n : VideoNode) (url : string) : VideoNode :=
  {| id := id n; videoUrl := Some url; x := x n; y := y n;
     color := color n; parentId := parentId n; children := children n;
     level := level n |}.

(** [`node-${Date.now()}`] *)
Definition newIdAt (now : Z) : string := "node-" +:+ pretty now.

(** [addChildNode]; [now] is what [Date.now()] returns during the call.
    [parent.x] on a missing parent is the first property read on
    [undefined]. *)
Definition addChildNode (nodes : Nodes) (parentId : string) (now : Z)
    : Outcome :=
  match nodes !! parentId with
  | None => Throw TypeError
  | Some parent =>
      let newId := newIdAt now in
      let colorIndex := (size nodes mod length COLORS)%nat in
      let newColor := COLORS_at colorIndex in
      let newNode :=
        {| id := newId; videoUrl := None;
           x := x parent; y := (y parent + LEVEL_HEIGHT)%Q;
           color := newColor; parentId := Some parentId; children := [];
           level := level parent + 1 |} in
      let updatedNodes :=
        <[newId := newNode]>
          (<[parentId := with_children parent (children parent ++ [newId])]>
             nodes) in
      match recalculateLayout updatedNodes with
      | None => Throw RangeError
      | Some laidOut => SetNodes laidOut
      end
  end.

(** The [File] picked in the dialog, reduced to what the handler reads. *)
Record File := mkFile { type : string }.

(** [handleFileSelect]; [file] is [event.target.files?.[0]] and [url] is
    what [URL.createObjectURL(file)] returns.  Spreading a missing
    [prev[nodeId]] would store an object with the single field [videoUrl]. *)
Definition handleFileSelect (prev : Nodes) (nodeId : string)
    (file : option File) (url : string) : Outcome :=
  match file with
  | Some f =>
      if String.prefix "video/" (type f) then
        match prev !! nodeId with
        | Some n =>
            SetNodes (<[nodeId := with_videoUrl n url]> prev)
        | None => Untyped
        end
      else NoUpdate
  | None => NoUpdate
  end.

(** The state after a handler ran, for the outcomes that leave a [Nodes]:
    the mapping given to [setNodes], or the old one when the handler
    returned or threw.  After [Untyped] the state is no [Nodes]; [commit]
    is applied to outcomes of [addChildNode], which are never [Untyped],
    and to outcomes of [handleFileSelect] for a node that exists. *)
Definition commit (nodes : Nodes) (o : Outcome) : Nodes :=
  match o with
  | SetNodes nodes' => nodes'
  | _ => nodes
  end.

(** ** Connector curves *)

(** A template literal: literal text interleaved with interpolated numbers.
    [render] is the string it evaluates to, for a given number-to-string
    conversion. *)
Inductive Piece :=
  | Lit (s : string)
  | Num (q : Q).

Definition Template := list Piece.

Definition render (show : Q → string) (t : Template) : string :=
  foldr (fun p acc =>
           match p with
           | Lit s => s +:+ acc
           | Num q => show q +:+ acc
           end) "" t.

(** The line break inside the second template literal. *)
Definition LF : string := String "010"%char "".

Definition startX (parent : VideoNode) : Q := x parent.
Definition startY (parent : VideoNode) : Q := (y parent + (80 # 1))%Q.
Definition endX (child : VideoNode) : Q := x child.
Definition endY (child : VideoNode) : Q := (y child - (80 # 1))%Q.
Definition midY (parent child : VideoNode) : Q :=
  ((startY parent + endY child) / (2 # 1))%Q.
Definition controlY1 (parent child : VideoNode) : Q :=
  (startY parent + (midY parent child - startY parent) * (6 # 10))%Q.
Definition controlY2 (parent child : VideoNode) : Q :=
  (endY child - (endY child - midY parent child) * (6 # 10))%Q.

Definition calculateBranchPath (parent child : VideoNode) : Template :=
  if Qlt_le_dec (Qabs (endX child - startX parent)) (10 # 1) then
    [ Lit "M "; Num (startX parent); Lit " "; Num (startY parent);
      Lit " L "; Num (endX child); Lit " "; Num (endY child) ]
  else
    [ Lit "M "; Num (startX parent); Lit " "; Num (startY parent);
      Lit " "; Lit LF;
      Lit "            C "; Num (startX parent); Lit " ";
      Num (controlY1 parent child); Lit ", "; Lit LF;
      Lit "              "; Num (endX child); Lit " ";
      Num (controlY2 parent child); Lit ", "; Lit LF;
      Lit "              "; Num (endX child); Lit " "; Num (endY child) ].

(** ** The component of src/components/VideoTreeBuilder.tsx

    This variant has no layout engine: a child is placed at a fixed offset
    from its parent and the connector depends on the sibling index. *)
Module FixedOffset.

Record VideoNode := mkVideoNode {
  id : string;
  videoUrl : option string;
  x : Q;
  y : Q;
  color : string;
  parentId : option string;
  children : list string
}.

Definition root_node : VideoNode :=
  {| id := "root"; videoUrl := None; x := 400 # 1; y := 50 # 1;
     color := COLORS_at 0; parentId := None; children := [] |}.

Definition reset : gmap string VideoNode := {[ "root" := root_node ]}.

Definition with_children (n : VideoNode) (cs : list string) : VideoNode :=
  {| id := id n; videoUrl := videoUrl n; x := x n; y := y n;
     color := color n; parentId := parentId n; children := cs |}.

(** [addChildNode]: the mapping passed to [setNodes], or [None] when
    [parent.children] is read on a missing parent. *)
Definition addChildNode (nodes : gmap string VideoNode) (parentId : string)
    (now : Z) : option (gmap string VideoNode) :=
  match nodes !! parentId with
  | None => None
  | Some parent =>
      let newId := newIdAt now in
      let childCount := length (children parent) in
      let offsetX : Q :=
        if decide (childCount = 0%nat) then 0 # 1
        else if decide ((childCount mod 2)%nat = 0%nat) then -150 # 1
        else 150 # 1 in
      let offsetY : Q := 180 # 1 in
      let colorIndex := (size nodes mod length COLORS)%nat in
      let newColor := COLORS_at colorIndex in
      let newNode :=
        {| id := newId; videoUrl := None;
           x := (x parent
                 + offsetX * inject_Z (Z.of_nat (childCount / 2) + 1))%Q;
           y := (y parent + offsetY)%Q;
           color := newColor; parentId := Some parentId; children := [] |} in
      Some (<[newId := newNode]>
              (<[parentId :=
                   with_children parent (children parent ++ [newId])]>
                 nodes))
  end.

Definition calculatePath (parent child : VideoNode)
    (siblingIndex totalSiblings : nat) : Template :=
  let startX := x parent in
  let startY := (y parent + (70 # 1))%Q in
  let endX := x child in
  let endY := (y child - (70 # 1))%Q in
  if decide (totalSiblings = 1%nat) then
    let midY := ((startY + endY) / (2 # 1))%Q in
    [ Lit "M "; Num startX; Lit " "; Num startY;
      Lit " L "; Num startX; Lit " "; Num midY;
      Lit " L "; Num endX; Lit " "; Num midY;
      Lit " L "; Num endX; Lit " "; Num endY ]
  else
    let curve : Q :=
      if decide ((siblingIndex mod 2)%nat = 0%nat) then -50 # 1
      else 50 # 1 in
    let midY := ((startY + endY) / (2 # 1))%Q in
    let controlX := ((startX + endX) / (2 # 1) + curve)%Q in
    [ Lit "M "; Num startX; Lit " "; Num startY;
      Lit " L "; Num startX; Lit " "; Num (midY - (30 # 1))%Q;
      Lit " Q "; Num controlX; Lit " "; Num midY; Lit " "; Num endX;
      Lit " "; Num (midY + (30 # 1))%Q;
      Lit " L "; Num endX; Lit " "; Num endY ].

End FixedOffset.

(** ** Trees over the mapping

    The mapping stores a tree as ids and child-id lists.  [rtree] is the
    tree it denotes; [Shape nodesMap t] says the child-id lists below
    [rid t] unfold to [t]. *)

Inductive rtree := RNode (i : string) (ks : list rtree).

Definition rid (t : rtree) : string := match t with RNode i _ => i end.
Definition kids (t : rtree) : list rtree := match t with RNode _ ks => ks end.

Fixpoint ids (t : rtree) : list string :=
  match t with RNode i ks => i :: flat_map ids ks end.

Fixpoint height (t : rtree) : nat :=
  match t with RNode _ ks => S (max_list (height <$> ks)) end.

Inductive Shape (nodesMap : Nodes) : rtree → Prop :=
  | Shape_node i n ks :
      nodesMap !! i = Some n →
      children n = rid <$> ks →
      Forall (Shape nodesMap) ks →
      Shape nodesMap (RNode i ks).

(** The mapping holds the tree [t]: the child links below the root unfold
    to [t], no id occurs twice in [t], and every node of the mapping occurs
    in [t]. *)
Definition IsTree (nodesMap : Nodes) (t : rtree) : Prop :=
  rid t = "root" ∧ Shape nodesMap t ∧ NoDup (ids t)
  ∧ ∀ j, is_Some (nodesMap !! j) → j ∈ ids t.

(** Parent links and [id] fields agree with the tree; [p] is the parent of
    the root of [t]. *)
Inductive Parented (nodesMap : Nodes) : option string → rtree → Prop :=
  | Parented_node p i n ks :
      nodesMap !! i = Some n →
      id n = i →
      parentId n = p →
      Forall (Parented nodesMap (Some i)) ks →
      Parented nodesMap p (RNode i ks).

(** [Placed mid nodesMap t s lvl e]: the coordinates stored in [nodesMap]
    are those of a layout pass over [t] entered with cursor [s] at depth
    [lvl] and left with cursor [e]; [mid before after] is the midpoint
    recorded for a child whose subtree moved the cursor from [before] to
    [after]. *)
Inductive Placed (mid : Q → Q → Q) (nodesMap : Nodes)
    : rtree → Q → Z → Q → Prop :=
  | Placed_leaf i n s lvl :
      nodesMap !! i = Some n →
      (x n == s)%Q →
      (y n == (100 # 1) + inject_Z lvl * LEVEL_HEIGHT)%Q →
      level n = lvl →
      Placed mid nodesMap (RNode i []) s lvl (s + NODE_SPACING)%Q
  | Placed_inner i n k ks s lvl mids e :
      nodesMap !! i = Some n →
      PlacedKids mid nodesMap (k :: ks) s (lvl + 1) mids e →
      (x n == mean mids)%Q →
      (y n == (100 # 1) + inject_Z lvl * LEVEL_HEIGHT)%Q →
      level n = lvl →
      Placed mid nodesMap (RNode i (k :: ks)) s lvl e
with PlacedKids (mid : Q → Q → Q) (nodesMap : Nodes)
    : list rtree → Q → Z → list Q → Q → Prop :=
  | PlacedKids_nil s lvl :
      PlacedKids mid nodesMap [] s lvl [] s
  | PlacedKids_cons k ks s lvl e1 mids e :
      Placed mid nodesMap k s lvl e1 →
      PlacedKids mid nodesMap ks e1 lvl mids e →
      PlacedKids mid nodesMap (k :: ks) s lvl (mid s e1 :: mids) e.

(** The midpoint as the specification words it: halfway between the cursor
    before and the cursor after the child's subtree. *)
Definition midpoint_between (before after : Q) : Q :=
  ((before + after) / (2 # 1))%Q.

(** A run of the store: [addChild] calls, each with its [Date.now()]. *)
Definition run (calls : list (string * Z)) (nodes : Nodes) : Nodes :=
  foldl (fun st c => commit st (addChildNode st c.1 c.2)) nodes calls.

(** A parent at (200, 100) over a child at (100, 320). *)
Definition sample_parent : VideoNode :=
  {| id := "root"; videoUrl := None; x := 200 # 1; y := 100 # 1;
     color := COLORS_at 0; parentId := None; children := ["a"]; level := 0 |}.

Definition sample_child : VideoNode :=
  {| id := "a"; videoUrl := None; x := 100 # 1; y := 320 # 1;
     color := COLORS_at 1; parentId := Some "root"; children := [];
     level := 1 |}.


(** ** What the specification requires of the store *)

(** [j] is reached from the root by following child ids. *)
Inductive Reachable (nodesMap : Nodes) : string → Prop :=
  | Reachable_root : Reachable nodesMap "root"
  | Reachable_child p n c :
      Reachable nodesMap p →
      nodesMap !! p = Some n →
      c ∈ children n →
      Reachable nodesMap c.

(** A single connected acyclic tree rooted at ["root"]. *)
Record SingleTree (nodesMap : Nodes) : Prop := {
  root_present : is_Some (nodesMap !! "root");
  only_root_parentless :
    ∀ j n, nodesMap !! j = Some n → (parentId n = None ↔ j = "root");
  parent_exists :
    ∀ j n p, nodesMap !! j = Some n → parentId n = Some p →
             is_Some (nodesMap !! p);
  all_reachable : ∀ j, is_Some (nodesMap !! j) → Reachable nodesMap j;
  depth_step :
    ∀ j n p np, nodesMap !! j = Some n → parentId n = Some p →
                nodesMap !! p = Some np → level n = level np + 1;
  links_unfold : ∃ t, IsTree nodesMap t
}.

(** ** Scenarios *)

(** One child added under the root while [Date.now()] is 5. *)
Definition one_child : Nodes := run [("root", 5)] reset.

(** A second child added under the root in the same millisecond. *)
Definition same_tick : Nodes := run [("root", 5); ("root", 5)] reset.

(** A child added under the first child in the same millisecond. *)
Definition same_tick_below : Nodes := run [("root", 5); ("node-5", 5)] reset.

(** Two children added under the root in different milliseconds. *)
Definition two_children : Nodes := run [("root", 5); ("root", 6)] reset.

(** Children under two nodes, while [Date.now()] never goes back: the
    root gets two children at 1 and 2; at 5 the second child gets a child
    and, in the same millisecond, so does the first; at 6 the first child
    gets another one. *)
Definition reused_under_two : Nodes :=
  run [("root", 1); ("root", 2); ("node-2", 5); ("node-1", 5); ("node-1", 6)]
    reset.

(** The same in the component of src/components/VideoTreeBuilder.tsx. *)
Definition fixed_one_child : option (gmap string FixedOffset.VideoNode) :=
  FixedOffset.addChildNode FixedOffset.reset "root" 5.

Definition fixed_same_tick : option (gmap string FixedOffset.VideoNode) :=
  fixed_one_child ≫= fun nodes => FixedOffset.addChildNode nodes "root" 5.

(** ** What a layout pass may change *)

(** [n'] is [n] up to [x], [y] and [level]. *)
Definition same_links (n n' : VideoNode) : Prop :=
  id n = id n' ∧ videoUrl n = videoUrl n' ∧ color n = color n'
  ∧ parentId n = parentId n' ∧ children n = children n'.

(** The two mappings have the same keys and, under each key, the same node
    up to [x], [y] and [level]. *)
Definition Relaid (nodesMap nodesMap' : Nodes) : Prop :=
  ∀ j, option_Forall2 same_links (nodesMap !! j) (nodesMap' !! j).

(** All subtrees of [t], [t] first. *)
Fixpoint subtrees (t : rtree) : list rtree :=
  match t with RNode _ ks => t :: flat_map subtrees ks end.

(** The tree of [one_child]: the root over the node made at 5. *)
Definition one_child_tree : rtree := RNode "root" [RNode "node-5" []].

(** The tree of [two_children]. *)
Definition two_children_tree : rtree :=
  RNode "root" [RNode "node-5" []; RNode "node-6" []].

(** ** Derived notions used by the further properties *)

(** Number of leaves of a tree. *)
Fixpoint leaves (t : rtree) : nat :=
  match t with
  | RNode _ ks =>
      match ks with
      | [] => 1%nat
      | _ => sum_list (leaves <$> ks)
      end
  end.

(** Two nodes are at least one slot apart horizontally. *)
Definition apart (n1 n2 : VideoNode) : Prop :=
  (x n1 + NODE_SPACING <= x n2)%Q ∨ (x n2 + NODE_SPACING <= x n1)%Q.

(** ** Growing the tree *)

(** [t] with the new leaf [c] appended to the children of [p]. *)
Fixpoint graft (p c : string) (t : rtree) : rtree :=
  match t with
  | RNode i ks =>
      RNode i (if decide (i = p)
               then ((graft p c <$> ks) ++ [RNode c []])%list
               else graft p c <$> ks)
  end.

(** The [level] fields are the depths in the tree, the root of [t] being
    at depth [lvl]. *)
Inductive Levelled (nodesMap : Nodes) : Z → rtree → Prop :=
  | Levelled_node lvl i n ks :
      nodesMap !! i = Some n →
      level n = lvl →
      Forall (Levelled nodesMap (lvl + 1)) ks →
      Levelled nodesMap lvl (RNode i ks).

(** Everything the store keeps true of a mapping that holds the tree [t]. *)
Definition WellLinked (nodesMap : Nodes) (t : rtree) : Prop :=
  IsTree nodesMap t ∧ Parented nodesMap None t ∧ Levelled nodesMap 0 t.

(** The mapping [addChildNode] hands to [recalculateLayout]. *)
Definition updatedNodes (nodes : Nodes) (parentId : string)
    (parent : VideoNode) (now : Z) : Nodes :=
  <[newIdAt now :=
      {| id := newIdAt now; videoUrl := None;
         x := x parent; y := (y parent + LEVEL_HEIGHT)%Q;
         color := COLORS_at (size nodes mod length COLORS);
         parentId := Some parentId; children := [];
         level := level parent + 1 |}]>
    (<[parentId :=
         with_children parent (children parent ++ [newIdAt now])]> nodes).

(** The fields a layout pass writes. *)
Definition coords (n : VideoNode) : Q * Q * Z := (x n, y n, level n).

(** Two passes, one taking [m1] to [m1'] and one taking [m2] to [m2'],
    treat every key alike: both leave it alone, or both give it the same
    coordinates. *)
Definition Agree (m1 m2 m1' m2' : Nodes) : Prop :=
  ∀ j, (m1' !! j = m1 !! j ∧ m2' !! j = m2 !! j)
       ∨ (coords <$> m1' !! j = coords <$> m2' !! j).

(** ** The states reached by handlers addressed to nodes *)

(** The states of [nodes] reached from the initial one, which the reset
    button installs again, by [addChildNode] with any parent id and any
    [Date.now()], and by [handleFileSelect] for a node id that is a key of
    the mapping (the id it is given is [activeNodeId], set when the
    placeholder of a shown node is clicked).  [handleFileSelect] for an id
    that is no key stores an object without [id], [color] and [children]
    (outcome [Untyped]): what follows such an update is no [Nodes] and is
    not covered by [ReachedOnKeys]. *)
Inductive ReachedOnKeys : Nodes → Prop :=
  | Reached_reset : ReachedOnKeys reset
  | Reached_addChild nodes p now nodes' :
      ReachedOnKeys nodes →
      addChildNode nodes p now = SetNodes nodes' →
      ReachedOnKeys nodes'
  | Reached_attach nodes nodeId file url nodes' :
      ReachedOnKeys nodes →
      is_Some (nodes !! nodeId) →
      handleFileSelect nodes nodeId file url = SetNodes nodes' →
      ReachedOnKeys nodes'.

(** Child links lead strictly upwards in [rank]: they form no cycle. *)
Definition Ranked (rank : string → nat) (nodesMap : Nodes) : Prop :=
  ∀ p n c, nodesMap !! p = Some n → c ∈ children n → (rank p < rank c)%nat.

(** Every child id is a key of the mapping. *)
Definition Closed (nodesMap : Nodes) : Prop :=
  ∀ p n c, nodesMap !! p = Some n → c ∈ children n → is_Some (nodesMap !! c).

(** The keys of [D] ranked above [i]: the nodes a pass can still enter
    below [i]. *)
Definition above (rank : string → nat) (D : gset string) (i : string)
    : gset string :=
  filter (fun j => (rank i < rank j)%nat) D.

(** What holds of every mapping in [ReachedOnKeys], whatever [Date.now()]
    gave. *)
Record Sound (nodesMap : Nodes) : Prop := {
  sound_root : is_Some (nodesMap !! "root");
  sound_closed : Closed nodesMap;
  sound_acyclic : ∃ rank, Ranked rank nodesMap;
  sound_ids : ∀ j n, nodesMap !! j = Some n → id n = j;
  sound_colors : ∀ j n, nodesMap !! j = Some n → color n ∈ COLORS
}.

(** ** Rendering the branches *)

(** [COLORS.indexOf(s)] *)
Fixpoint indexOf (l : list string) (s : string) : Z :=
  match l with
  | [] => -1
  | a :: l' =>
      if decide (a = s) then 0
      else let r := indexOf l' s in if decide (r = -1) then -1 else r + 1
  end.

(** One [<g key=...><path d=... stroke="url(#gradient-N)"/></g>]. *)
Record Branch := mkBranch {
  key : string;
  d : Template;
  colorIndex : Z
}.

(** [node.children.map((childId) => ...)] of the render; [None] is the
    TypeError of reading [child.color] on a missing child. *)
Definition branchesOf (nodes : Nodes) (node : VideoNode)
    : option (list Branch) :=
  mapM (fun childId =>
          match nodes !! childId with
          | None => None
          | Some child =>
              Some {| key := id node +:+ "-" +:+ childId;
                      d := calculateBranchPath node child;
                      colorIndex := indexOf COLORS (color child) |}
          end) (children node).

(** ** Canvas and scroll position *)

(** [Math.max(...numbers)]; [None] is the [-Infinity] of no numbers. *)
Definition maxList (numbers : list Q) : option Q :=
  foldr (fun q acc => Some match acc with
                           | None => q
                           | Some a => Qmax q a
                           end) None numbers.

(** [Math.max(...Object.values(nodes).map(f))].  The values are taken in
    the order of [map_to_list]; the maximum does not depend on it. *)
Definition maxOf (f : VideoNode → Q) (nodes : Nodes) : option Q :=
  maxList (f <$> (map_to_list nodes).*2).

(** [Math.max(1200, maxX + 400)] of the canvas style. *)
Definition canvasWidth (nodes : Nodes) : Q :=
  match maxOf x nodes with
  | None => 1200 # 1
  | Some maxX => Qmax (1200 # 1) (maxX + (400 # 1))
  end.

(** [Math.max(800, maxY + 300)] of the canvas style. *)
Definition canvasHeight (nodes : Nodes) : Q :=
  match maxOf y nodes with
  | None => 800 # 1
  | Some maxY => Qmax (800 # 1) (maxY + (300 # 1))
  end.

(** The effect on [nodes]: the value assigned to [scrollLeft], if any, for
    a container that is [offsetWidth] wide. *)
Definition scrollTarget (nodes : Nodes) (offsetWidth : Z) : option Q :=
  match maxOf x nodes, maxOf y nodes with
  | Some maxX, Some maxY =>
      if Qlt_le_dec 0 maxX then
        if Qlt_le_dec 0 maxY then
          let centerX := (inject_Z offsetWidth / (2 # 1))%Q in
          Some (Qmax 0 (maxX / (2 # 1) + (200 # 1) - centerX))
        else None
      else None
  | _, _ => None
  end.

(** The two mappings have the same keys and, under each key, the same
    child ids. *)
Definition Alike (nodesMap nodesMap' : Nodes) : Prop :=
  ∀ j, option_Forall2 (fun n n' => children n = children n')
         (nodesMap !! j) (nodesMap' !! j).

(** * Layout engine: properties *)

(** ** Induction over trees *)

Section rtree_induction.

Variable P : rtree → Prop.
Hypothesis P_node : ∀ i ks, Forall P ks → P (RNode i ks).

Fixpoint rtree_ind' (t : rtree) : P t :=
  match t with
  | RNode i ks =>
      P_node i ks
        ((fix go (l : list rtree) : Forall P l :=
            match l with
            | [] => @List.Forall_nil _ P
            | k :: l' => @List.Forall_cons _ P k l' (rtree_ind' k) (go l')
            end) ks)
  end.

End rtree_induction.

Lemma elem_of_flat_map {A B} (f : A → list B) (l : list A) (b : B) :
  b ∈ flat_map f l ↔ ∃ a, a ∈ l ∧ b ∈ f a.
Proof.
  rewrite list_elem_of_In, in_flat_map.
  by setoid_rewrite list_elem_of_In.
Qed.

Lemma rid_in_ids (t : rtree) : rid t ∈ ids t.
Proof. destruct t. simpl. left. Qed.

(** ** A pass rewrites coordinates only *)

Lemma same_links_refl (n : VideoNode) : same_links n n.
Proof. by repeat split. Qed.

Lemma same_links_trans (n1 n2 n3 : VideoNode) :
  same_links n1 n2 → same_links n2 n3 → same_links n1 n3.
Proof.
  intros (?&?&?&?&?) (?&?&?&?&?). repeat split; congruence.
Qed.

Lemma same_links_place (n : VideoNode) (vx : Q) (lvl : Z) :
  same_links n (place n vx lvl).
Proof. by repeat split. Qed.

Lemma Relaid_refl (m : Nodes) : Relaid m m.
Proof.
  intros j. destruct (m !! j); constructor. apply same_links_refl.
Qed.

Lemma Relaid_trans (m1 m2 m3 : Nodes) :
  Relaid m1 m2 → Relaid m2 m3 → Relaid m1 m3.
Proof.
  intros H12 H23 j. specialize (H12 j). specialize (H23 j).
  destruct H12 as [n1 n2 Hn|]; inversion H23; subst; constructor.
  eauto using same_links_trans.
Qed.

Lemma Relaid_place (m : Nodes) (i : string) (vx : Q) (lvl : Z) :
  Relaid m (alter (fun n => place n vx lvl) i m).
Proof.
  intros j. destruct (decide (i = j)) as [->|Hne].
  - rewrite lookup_alter_eq. destruct (m !! j); constructor.
    apply same_links_place.
  - rewrite lookup_alter_ne by done.
    destruct (m !! j); constructor. apply same_links_refl.
Qed.

Lemma Relaid_lookup (m m' : Nodes) (j : string) (n : VideoNode) :
  Relaid m m' → m !! j = Some n →
  ∃ n', m' !! j = Some n' ∧ same_links n n'.
Proof.
  intros H Hn. specialize (H j). rewrite Hn in H. inversion H; subst. eauto.
Qed.

Lemma Relaid_lookup_inv (m m' : Nodes) (j : string) (n' : VideoNode) :
  Relaid m m' → m' !! j = Some n' →
  ∃ n, m !! j = Some n ∧ same_links n n'.
Proof.
  intros H Hn. specialize (H j). rewrite Hn in H. inversion H; subst. eauto.
Qed.

Lemma Relaid_size (m m' : Nodes) : Relaid m m' → size m = size m'.
Proof.
  intros H. rewrite <- !size_dom. f_equal. apply set_eq. intros j.
  rewrite !elem_of_dom. specialize (H j).
  inversion H; split; intros [? ?]; by eauto || congruence.
Qed.

Lemma layoutChildren_relaid
    (layout : string → Nodes → Q → option (Nodes * Q)) :
  (∀ c m cur m' e, layout c m cur = Some (m', e) → Relaid m m') →
  ∀ ks m cur acc m' e mids,
    layoutChildren layout ks m cur acc = Some (m', e, mids) → Relaid m m'.
Proof.
  intros Hlayout ks. induction ks as [|c ks IH]; intros m cur acc m' e mids.
  - simpl. intros [= <- <- <-]. apply Relaid_refl.
  - simpl. destruct (layout c m cur) as [[m1 e1]|] eqn:Hc; [|done].
    intros Hrest. eapply Relaid_trans; eauto.
Qed.

(** The body of [calculateTreeLayout], one call deep. *)
Lemma calculateTreeLayout_unfold fuel i m s lvl :
  calculateTreeLayout (S fuel) i m s lvl =
  match m !! i with
  | None => Some (m, s)
  | Some node =>
      match children node with
      | [] => Some (alter (fun n => place n s lvl) i m, (s + NODE_SPACING)%Q)
      | _ =>
          match layoutChildren
                  (fun c m' cur => calculateTreeLayout fuel c m' cur (lvl + 1))
                  (children node) m s [] with
          | None => None
          | Some (m', currentX, childPositions) =>
              Some (alter (fun n => place n
                                     match childPositions with
                                     | [] => s
                                     | _ => mean childPositions
                                     end lvl) i m', currentX)
          end
      end
  end.
Proof.
  simpl. destruct (m !! i) as [n|]; [|done]. by destruct (children n).
Qed.

Lemma calculateTreeLayout_relaid (fuel : nat) :
  ∀ i m s lvl m' e,
    calculateTreeLayout fuel i m s lvl = Some (m', e) → Relaid m m'.
Proof.
  induction fuel as [|fuel IH]; intros i m s lvl m' e; [done|].
  rewrite calculateTreeLayout_unfold. destruct (m !! i) as [n|] eqn:Hn.
  - destruct (children n) as [|c cs] eqn:Hcs.
    + intros [= <- <-]. apply Relaid_place.
    + destruct (layoutChildren _ _ _ _ _) as [[[m1 e1] mids]|] eqn:Hkids;
        [|done].
      intros [= <- <-]. eapply Relaid_trans; [|apply Relaid_place].
      eapply layoutChildren_relaid; [|exact Hkids].
      intros ? ? ? ? ?. apply IH.
  - intros [= <- <-]. apply Relaid_refl.
Qed.

Lemma Shape_relaid (m m' : Nodes) (t : rtree) :
  Relaid m m' → Shape m t → Shape m' t.
Proof.
  intros Hrel. induction t as [i ks IH] using rtree_ind'.
  inversion 1 as [i' n ks' Hn Hcs Hks]; subst.
  destruct (Relaid_lookup _ _ _ _ Hrel Hn) as (n' & Hn' & Hsame).
  econstructor; [exact Hn'| |].
  - destruct Hsame as (_ & _ & _ & _ & <-). done.
  - rewrite Forall_forall in IH, Hks. apply Forall_forall. eauto.
Qed.

(** ** [Placed] reads the mapping at the ids of the tree only *)

Scheme Placed_min := Minimality for Placed Sort Prop
  with PlacedKids_min := Minimality for PlacedKids Sort Prop.

Combined Scheme Placed_mutual from Placed_min, PlacedKids_min.

Lemma Placed_ext_mutual (mid : Q → Q → Q) (m : Nodes) :
  (∀ t s lvl e, Placed mid m t s lvl e →
     ∀ m', (∀ j, j ∈ ids t → m' !! j = m !! j) → Placed mid m' t s lvl e)
  ∧ (∀ ks s lvl mids e, PlacedKids mid m ks s lvl mids e →
     ∀ m', (∀ j, j ∈ flat_map ids ks → m' !! j = m !! j) →
           PlacedKids mid m' ks s lvl mids e).
Proof.
  apply Placed_mutual.
  - intros i n s lvl Hn Hx Hy Hl m' Hm'.
    eapply Placed_leaf; eauto. rewrite Hm'; [done|]. simpl. left.
  - intros i n k ks s lvl mids e Hn _ IH Hx Hy Hl m' Hm'.
    eapply Placed_inner; eauto.
    + rewrite Hm'; [done|]. simpl. left.
    + apply IH. intros j Hj. apply Hm'. simpl. by right.
  - intros s lvl m' _. constructor.
  - intros k ks s lvl e1 mids e _ IHk _ IHks m' Hm'.
    constructor.
    + apply IHk. intros j Hj. apply Hm'. simpl. apply elem_of_app. by left.
    + apply IHks. intros j Hj. apply Hm'. simpl. apply elem_of_app. by right.
Qed.

Lemma Placed_ext mid (m m' : Nodes) t s lvl e :
  (∀ j, j ∈ ids t → m' !! j = m !! j) →
  Placed mid m t s lvl e → Placed mid m' t s lvl e.
Proof. intros Hm' H. by eapply (proj1 (Placed_ext_mutual mid m)). Qed.

Lemma PlacedKids_ext mid (m m' : Nodes) ks s lvl mids e :
  (∀ j, j ∈ flat_map ids ks → m' !! j = m !! j) →
  PlacedKids mid m ks s lvl mids e → PlacedKids mid m' ks s lvl mids e.
Proof. intros Hm' H. by eapply (proj2 (Placed_ext_mutual mid m)). Qed.

(** ** A pass over a tree terminates and places it *)

(** What one call achieves on the subtree [k] with fuel [fuel]. *)
Definition lays_out (fuel : nat) (k : rtree) : Prop :=
  ∀ m s lvl,
    Shape m k → NoDup (ids k) → (height k ≤ fuel)%nat →
    ∃ m' e,
      calculateTreeLayout fuel (rid k) m s lvl = Some (m', e)
      ∧ Placed childPosition m' k s lvl e
      ∧ (∀ j, j ∉ ids k → m' !! j = m !! j).

Lemma layoutChildren_places (fuel : nat) (lvl : Z) (ks : list rtree) :
  Forall (lays_out fuel) ks →
  ∀ m s acc,
    Forall (Shape m) ks → NoDup (flat_map ids ks) →
    Forall (fun k => (height k ≤ fuel)%nat) ks →
    ∃ m' e mids,
      layoutChildren (fun c m' cur => calculateTreeLayout fuel c m' cur lvl)
        (rid <$> ks) m s acc = Some (m', e, (acc ++ mids)%list)
      ∧ PlacedKids childPosition m' ks s lvl mids e
      ∧ (∀ j, j ∉ flat_map ids ks → m' !! j = m !! j).
Proof.
  induction 1 as [|k ks Hk _ IH]; intros m s acc Hshape Hnodup Hfuel.
  - exists m, s, []. simpl. rewrite app_nil_r.
    split; [done|]. split; [constructor|done].
  - apply Forall_cons in Hshape as [Hsk Hsks].
    apply Forall_cons in Hfuel as [Hfk Hfks].
    simpl in Hnodup. apply NoDup_app in Hnodup as (Hnk & Hdisj & Hnks).
    destruct (Hk m s lvl Hsk Hnk Hfk) as (m1 & e1 & Hcall & Hplaced & Hframe).
    assert (Relaid m m1) as Hrel by (eapply calculateTreeLayout_relaid; eauto).
    destruct (IH m1 e1 (acc ++ [childPosition s e1])%list) as
      (m2 & e & mids & Hrest & Hkids & Hframe2); [|done|done|].
    { eapply Forall_impl; [exact Hsks|]. intros ?. by apply Shape_relaid. }
    exists m2, e, (childPosition s e1 :: mids). split; [|split].
    + rewrite fmap_cons. simpl. rewrite Hcall, Hrest.
      by rewrite <- app_assoc.
    + constructor; [|done]. eapply Placed_ext; [|exact Hplaced].
      intros j Hj. apply Hframe2. intros Hj'. by eapply Hdisj.
    + intros j Hj. simpl in Hj. rewrite elem_of_app in Hj.
      rewrite Hframe2, Hframe by tauto. done.
Qed.

Lemma calculateTreeLayout_places (t : rtree) : ∀ fuel, lays_out fuel t.
Proof.
  induction t as [i ks IH] using rtree_ind'.
  intros fuel m s lvl Hshape Hnodup Hfuel.
  inversion Hshape as [i' n ks' Hn Hcs Hks]; subst.
  simpl in Hnodup. apply NoDup_cons in Hnodup as [Hi Hnks].
  destruct fuel as [|fuel]; [simpl in Hfuel; lia|].
  simpl in Hfuel. cbn [rid]. rewrite calculateTreeLayout_unfold, Hn.
  destruct ks as [|k ks].
  - rewrite Hcs. simpl.
    eexists _, _. split; [done|]. split.
    + eapply Placed_leaf; [by rewrite lookup_alter_eq, Hn|done|done|done].
    + intros j Hj. apply lookup_alter_ne. intros ->. apply Hj. simpl. left.
  - assert (Forall (fun k => (height k ≤ fuel)%nat) (k :: ks)) as Hfuels.
    { apply Forall_forall. intros k' Hk'.
      assert (height k' ≤ max_list (height <$> (k :: ks)))%nat; [|lia].
      apply max_list_elem_of_le, list_elem_of_fmap. eauto. }
    destruct (layoutChildren_places fuel (lvl + 1) (k :: ks)) with
      (m := m) (s := s) (acc := @nil Q)
      as (m1 & e & mids & Hcall & Hkids & Hframe); [|done|done|done|].
    { eapply Forall_impl; [exact IH|]. intros k' Hk'. apply Hk'. }
    rewrite Hcs, Hcall. rewrite fmap_cons. simpl app.
    assert (m1 !! i = Some n) as Hn1 by (by rewrite Hframe).
    inversion Hkids as [|? ? ? ? e1 mids' ? Hk1 Hks1]; subst.
    eexists _, _. split; [done|]. split.
    + eapply Placed_inner.
      * by rewrite lookup_alter_eq, Hn1.
      * eapply PlacedKids_ext; [|exact Hkids].
        intros j Hj. apply lookup_alter_ne. by intros ->.
      * done.
      * done.
      * done.
    + intros j Hj. simpl in Hj. rewrite not_elem_of_cons in Hj.
      destruct Hj as [Hji Hj].
      rewrite lookup_alter_ne by done. by apply Hframe.
Qed.

(** ** The fuel of [recalculateLayout] suffices on a tree *)

Lemma height_le_ids (t : rtree) : (height t ≤ length (ids t))%nat.
Proof.
  induction t as [i ks IH] using rtree_ind'. simpl.
  apply le_n_S. induction IH as [|k ks Hk _ IHks]; simpl; [lia|].
  rewrite length_app. unfold fmap in IHks. lia.
Qed.

Lemma Shape_lookup (m : Nodes) (t : rtree) :
  Shape m t → ∀ j, j ∈ ids t → is_Some (m !! j).
Proof.
  induction t as [i ks IH] using rtree_ind'.
  inversion 1 as [i' n ks' Hn Hcs Hks]; subst.
  intros j. simpl. rewrite elem_of_cons, elem_of_flat_map.
  intros [->|(k & Hk & Hj)]; [by eauto|].
  rewrite Forall_forall in IH, Hks. eauto.
Qed.

Lemma ids_le_size (m : Nodes) (t : rtree) :
  Shape m t → NoDup (ids t) → (length (ids t) ≤ size m)%nat.
Proof.
  intros Hshape Hnodup. rewrite <- size_dom.
  unfold size, set_size. simpl. apply submseteq_length.
  apply NoDup_submseteq; [done|]. intros j Hj.
  apply elem_of_elements, elem_of_dom. by eapply Shape_lookup.
Qed.

(** A call that returns does so with any larger fuel, and returns the
    same. *)
Lemma layoutChildren_ext (f g : string → Nodes → Q → option (Nodes * Q)) :
  (∀ c m cur r, f c m cur = Some r → g c m cur = Some r) →
  ∀ ks m cur acc r,
    layoutChildren f ks m cur acc = Some r →
    layoutChildren g ks m cur acc = Some r.
Proof.
  intros Hfg ks. induction ks as [|c ks IH]; intros m cur acc r; [done|].
  simpl. destruct (f c m cur) as [[m1 e1]|] eqn:Hc; [|done].
  rewrite (Hfg _ _ _ _ Hc). apply IH.
Qed.

Lemma calculateTreeLayout_fuel_mono (fuel fuel' : nat) :
  (fuel ≤ fuel')%nat →
  ∀ i m s lvl r,
    calculateTreeLayout fuel i m s lvl = Some r →
    calculateTreeLayout fuel' i m s lvl = Some r.
Proof.
  revert fuel'. induction fuel as [|fuel IH]; intros fuel' Hle i m s lvl r;
    [done|].
  destruct fuel' as [|fuel']; [lia|].
  rewrite !calculateTreeLayout_unfold.
  destruct (m !! i) as [n|]; [|done].
  destruct (children n) as [|c cs]; [intros H; exact H|].
  destruct (layoutChildren _ _ _ _ _) as [[[m1 e1] mids]|] eqn:Hkids; [|done].
  intros H.
  rewrite (layoutChildren_ext _
             (fun c m' cur => calculateTreeLayout fuel' c m' cur (lvl + 1))
             (fun c m' cur r => IH fuel' ltac:(lia) c m' cur (lvl + 1) r)
             _ _ _ _ _ Hkids).
  exact H.
Qed.

(** The keys of a concrete mapping, checked by evaluation. *)
Lemma keys_listed (m : Nodes) (l : list string) :
  bool_decide (Forall (fun j => j ∈ l) (map_to_list m).*1) = true →
  ∀ j, is_Some (m !! j) → j ∈ l.
Proof.
  intros Hall j [n Hn]. apply bool_decide_eq_true_1 in Hall.
  rewrite Forall_forall in Hall. apply Hall.
  apply list_elem_of_fmap. exists (j, n). split; [done|].
  by apply elem_of_map_to_list.
Qed.

Lemma one_child_is_tree : IsTree one_child one_child_tree.
Proof.
  split; [done|]. split; [|split].
  - econstructor; [by vm_compute|by vm_compute|].
    repeat constructor. econstructor; [by vm_compute|by vm_compute|done].
  - compute_done.
  - by apply keys_listed.
Qed.

(** C1 as stated fails: in the tree of a root with one child, the child's
    subtree moves the cursor from 100 to 300, the midpoint between the two
    is 200, and the pass puts the root at x = 100. *)
Lemma layout_not_midpoint_between :
  IsTree one_child one_child_tree
  ∧ ∃ m', recalculateLayout one_child = Some m'
          ∧ (x <$> m' !! "root") = Some (200 # 2)%Q
          ∧ ∀ e, ¬ Placed midpoint_between m' one_child_tree (100 # 1) 0 e.
Proof.
  split; [apply one_child_is_tree|].
  - destruct (recalculateLayout one_child) as [m'|] eqn:Hm';
      [|by vm_compute in Hm'].
    exists m'. split; [done|].
    assert (m' !! "root" = Some (place (with_children root_node ["node-5"])
                                   (200 # 2) 0)) as Hroot.
    { vm_compute in Hm'. injection Hm' as <-. by vm_compute. }
    split; [by rewrite Hroot|].
    intros e Hplaced.
    inversion Hplaced as [|? n ? ? ? ? mids ? Hn Hkids Hx]; subst.
    inversion Hkids as [|? ? ? ? e1 mids' ? Hk Hrest]; subst.
    inversion Hk; subst. inversion Hrest; subst.
    rewrite Hroot in Hn. injection Hn as <-.
    vm_compute in Hx. done.
Qed.

(** The pass that [recalculateLayout] starts has fuel for every tree. *)
Lemma pass_from_root (nodesMap : Nodes) (t : rtree) :
  Shape nodesMap t → NoDup (ids t) →
  ∃ nodesMap' e,
    calculateTreeLayout (S (size nodesMap)) (rid t) nodesMap (100 # 1) 0
      = Some (nodesMap', e)
    ∧ Placed childPosition nodesMap' t (100 # 1) 0 e.
Proof.
  intros Hshape Hnodup.
  destruct (calculateTreeLayout_places t (S (size nodesMap)) nodesMap
              (100 # 1)%Q 0 Hshape Hnodup) as (m' & e & Hcall & Hplaced & _).
  { pose proof (height_le_ids t). pose proof (ids_le_size _ _ Hshape Hnodup).
    lia. }
  eauto.
Qed.

(** C1, amended: for every tree, the layout pass started at the root with
    cursor 100 and depth 0 returns, and in the mapping it leaves ([Placed]):
    a leaf has x equal to the cursor on entry and moves the cursor by
    NODE_SPACING; an internal node has x equal to the arithmetic mean of
    its children's midpoints, where a child's midpoint is
    (before + after - NODE_SPACING) / 2 for the cursor values before and
    after that child's subtree was laid out; every node has
    y = 100 + depth * LEVEL_HEIGHT and level = depth, the depth being that
    of this pass.  Nothing but x, y and level is changed. *)
Theorem recalculateLayout_places (nodesMap : Nodes) (t : rtree) :
  IsTree nodesMap t →
  ∃ nodesMap' e,
    recalculateLayout nodesMap = Some nodesMap'
    ∧ Placed childPosition nodesMap' t (100 # 1) 0 e
    ∧ Relaid nodesMap nodesMap'.
Proof.
  intros (Hroot & Hshape & Hnodup & _).
  destruct (pass_from_root _ _ Hshape Hnodup) as (m' & e & Hcall & Hplaced).
  rewrite Hroot in Hcall. exists m', e. split; [|split].
  - unfold recalculateLayout. by rewrite Hcall.
  - exact Hplaced.
  - by eapply calculateTreeLayout_relaid.
Qed.

Lemma recalculateLayout_places_witness :
  ∃ nodesMap' e,
    recalculateLayout one_child = Some nodesMap'
    ∧ Placed childPosition nodesMap' one_child_tree (100 # 1) 0 e
    ∧ Relaid one_child nodesMap'.
Proof. apply recalculateLayout_places, one_child_is_tree. Defined.

(** ** Every node lies within the span of its subtree *)

Lemma fold_left_Qplus_acc (l : list Q) (a : Q) :
  (fold_left Qplus l a == a + fold_left Qplus l (0 # 1))%Q.
Proof.
  revert a. induction l as [|q l IH]; intros a; simpl.
  - ring.
  - rewrite (IH (a + q)%Q), (IH ((0 # 1) + q)%Q). ring.
Qed.

Lemma inject_length_cons {A} (a : A) (l : list A) :
  (inject_Z (Z.of_nat (length (a :: l)))
   == inject_Z (Z.of_nat (length l)) + (1 # 1))%Q.
Proof.
  simpl length. rewrite Nat2Z.inj_succ, <- Z.add_1_r, inject_Z_plus.
  reflexivity.
Qed.

Lemma sum_bounds (lo hi : Q) (l : list Q) :
  Forall (fun q => lo <= q ∧ q <= hi)%Q l →
  (lo * inject_Z (Z.of_nat (length l)) <= fold_left Qplus l (0 # 1)
   ∧ fold_left Qplus l (0 # 1) <= hi * inject_Z (Z.of_nat (length l)))%Q.
Proof.
  induction 1 as [|q l [Hlo Hhi] _ [IHlo IHhi]].
  - simpl. split; apply Qle_lteq; right; ring.
  - rewrite inject_length_cons. simpl fold_left.
    rewrite fold_left_Qplus_acc. split; lra.
Qed.

Lemma mean_bounds (lo hi : Q) (l : list Q) :
  l ≠ [] →
  Forall (fun q => lo <= q ∧ q <= hi)%Q l →
  (lo <= mean l ∧ mean l <= hi)%Q.
Proof.
  intros Hne Hall. destruct (sum_bounds lo hi l Hall) as [Hlo Hhi].
  assert (0 < inject_Z (Z.of_nat (length l)))%Q as Hpos.
  { destruct l as [|q l]; [done|].
    change (0 # 1)%Q with (inject_Z 0). rewrite <- Zlt_Qlt. simpl. lia. }
  unfold mean. split.
  - by apply Qle_shift_div_l.
  - by apply Qle_shift_div_r.
Qed.

Lemma childPosition_bounds (s e : Q) :
  (s + NODE_SPACING <= e →
   s <= childPosition s e ∧ childPosition s e <= e - NODE_SPACING)%Q.
Proof.
  unfold childPosition, NODE_SPACING. intros H. split.
  - apply Qle_shift_div_l; [reflexivity|lra].
  - apply Qle_shift_div_r; [reflexivity|lra].
Qed.

Lemma Placed_bounds_mutual (m : Nodes) :
  (∀ t s lvl e, Placed childPosition m t s lvl e →
     (s + NODE_SPACING <= e)%Q
     ∧ ∃ n, m !! rid t = Some n
            ∧ (s <= x n)%Q ∧ (x n + NODE_SPACING <= e)%Q)
  ∧ (∀ ks s lvl mids e, PlacedKids childPosition m ks s lvl mids e →
     (s <= e)%Q
     ∧ (ks ≠ [] → mids ≠ [] ∧ (s + NODE_SPACING <= e)%Q)
     ∧ Forall (fun q => s <= q ∧ q <= e - NODE_SPACING)%Q mids).
Proof.
  apply Placed_mutual.
  - intros i n s lvl Hn Hx _ _. split; [apply Qle_refl|].
    exists n. rewrite Hx. repeat split; [done|apply Qle_refl..].
  - intros i n k ks s lvl mids e Hn _ (Hse & Hne & Hmids) Hx _ _.
    destruct Hne as [Hmne Hgap]; [done|]. split; [done|].
    exists n. destruct (mean_bounds _ _ _ Hmne Hmids) as [Hlo Hhi].
    rewrite Hx. unfold NODE_SPACING in *. repeat split; [done|lra|lra].
  - intros s lvl. split; [apply Qle_refl|]. split; [done|constructor].
  - intros k ks s lvl e1 mids e _ (Hgap & n & _ & _ & _) _ (Hle & _ & Hmids).
    destruct (childPosition_bounds s e1 Hgap) as [Hlo Hhi].
    unfold NODE_SPACING in *.
    split; [lra|]. split; [split; [done|lra]|].
    constructor.
    + split; lra.
    + eapply Forall_impl; [exact Hmids|]. simpl. intros q [? ?]. split; lra.
Qed.

Lemma Placed_span m t s lvl e :
  Placed childPosition m t s lvl e →
  ∃ n, m !! rid t = Some n ∧ (s <= x n)%Q ∧ (x n + NODE_SPACING <= e)%Q.
Proof. intros H. by apply (proj1 (Placed_bounds_mutual m)) in H as [_ ?]. Qed.

Lemma PlacedKids_cursor m ks s lvl mids e :
  PlacedKids childPosition m ks s lvl mids e → (s <= e)%Q.
Proof. intros H. by apply (proj2 (Placed_bounds_mutual m)) in H as [? _]. Qed.

(** The cursors at which a child in the middle of the list is entered and
    left. *)
Lemma PlacedKids_middle mid m (l1 : list rtree) k l2 s lvl mids e :
  PlacedKids mid m (l1 ++ k :: l2) s lvl mids e →
  ∃ s1 e1 mids1 mids2,
    PlacedKids mid m l1 s lvl mids1 s1
    ∧ Placed mid m k s1 lvl e1
    ∧ PlacedKids mid m l2 e1 lvl mids2 e.
Proof.
  revert s mids. induction l1 as [|k1 l1 IH]; intros s mids; simpl.
  - inversion 1; subst. eexists _, _, _, _. split; [constructor|]. eauto.
  - inversion 1 as [|? ? ? ? e' mids' ? Hk1 Hrest]; subst.
    destruct (IH _ _ Hrest) as (s1 & e1 & mids1 & mids2 & H1 & Hk & H2).
    eexists _, _, _, _. split; [econstructor; eauto|]. eauto.
Qed.

Lemma PlacedKids_ordered m (l1 : list rtree) a l2 b l3 s lvl mids e :
  PlacedKids childPosition m (l1 ++ a :: l2 ++ b :: l3) s lvl mids e →
  ∃ na nb,
    m !! rid a = Some na ∧ m !! rid b = Some nb
    ∧ (x na + NODE_SPACING <= x nb)%Q.
Proof.
  intros H.
  apply PlacedKids_middle in H as (sa & ea & _ & mids' & _ & Ha & Hrest).
  apply PlacedKids_middle in Hrest as (sb & eb & ? & ? & Hl2 & Hb & _).
  apply Placed_span in Ha as (na & Hna & _ & Hxa).
  apply Placed_span in Hb as (nb & Hnb & Hxb & _).
  apply PlacedKids_cursor in Hl2.
  exists na, nb. repeat split; [done|done|lra].
Qed.

(** ** Subtrees *)

Lemma subtrees_self (t : rtree) : t ∈ subtrees t.
Proof. destruct t. simpl. left. Qed.

Lemma ids_subtrees (t : rtree) (j : string) :
  j ∈ ids t → ∃ t', t' ∈ subtrees t ∧ rid t' = j.
Proof.
  induction t as [i ks IH] using rtree_ind'. simpl.
  rewrite elem_of_cons, elem_of_flat_map.
  intros [->|(k & Hk & Hj)].
  - exists (RNode i ks). split; [left|done].
  - rewrite Forall_forall in IH. destruct (IH k Hk Hj) as (t' & Ht' & Hrid).
    exists t'. split; [|done]. right. apply elem_of_flat_map. eauto.
Qed.

Lemma Shape_subtree (m : Nodes) (t t' : rtree) :
  Shape m t → t' ∈ subtrees t → Shape m t'.
Proof.
  induction t as [i ks IH] using rtree_ind'. intros Hshape. simpl.
  rewrite elem_of_cons, elem_of_flat_map.
  intros [->|(k & Hk & Ht')]; [done|].
  inversion Hshape as [i' n ks' Hn Hcs Hks]; subst.
  rewrite Forall_forall in IH, Hks. eauto.
Qed.

Lemma PlacedKids_elem mid m (ks : list rtree) k s lvl mids e :
  PlacedKids mid m ks s lvl mids e → k ∈ ks →
  ∃ s' e', Placed mid m k s' lvl e'.
Proof.
  intros H Hk. apply list_elem_of_split in Hk as (l1 & l2 & ->).
  apply PlacedKids_middle in H as (s1 & e1 & _ & _ & _ & Hk & _). eauto.
Qed.

Lemma Placed_subtree mid (m : Nodes) (t t' : rtree) :
  ∀ s lvl e, Placed mid m t s lvl e → t' ∈ subtrees t →
  ∃ s' lvl' e', Placed mid m t' s' lvl' e'.
Proof.
  induction t as [i ks IH] using rtree_ind'. intros s lvl e Hplaced. simpl.
  rewrite elem_of_cons, elem_of_flat_map.
  intros [->|(k & Hk & Ht')]; [by eauto|].
  rewrite Forall_forall in IH.
  inversion Hplaced as [|? n k0 ks0 ? ? mids ? Hn Hkids]; subst.
  - by apply elem_of_nil in Hk.
  - destruct (PlacedKids_elem _ _ _ _ _ _ _ _ Hkids Hk) as (s' & e' & Hpk).
    eauto.
Qed.

Lemma Placed_kids mid (m : Nodes) i ks s lvl e :
  Placed mid m (RNode i ks) s lvl e →
  ∃ mids, PlacedKids mid m ks s (lvl + 1) mids e ∨ ks = [].
Proof.
  inversion 1; subst; [exists []; by right|]. eexists. by left.
Qed.

(** X20: after a layout pass over a tree, whenever [a] precedes [b] in
    the child ids of a node, [a] is placed to the left of [b]:
    position(a).x <= position(b).x, and indeed they are at least
    NODE_SPACING apart. *)
Theorem siblings_left_to_right
    (nodesMap nodesMap' : Nodes) (t : rtree) (p a b : string)
    (np na nb : VideoNode) (before between after : list string) :
  IsTree nodesMap t →
  recalculateLayout nodesMap = Some nodesMap' →
  nodesMap' !! p = Some np →
  children np = (before ++ a :: between ++ b :: after)%list →
  nodesMap' !! a = Some na →
  nodesMap' !! b = Some nb →
  (x na <= x nb)%Q ∧ (x na + NODE_SPACING <= x nb)%Q.
Proof.
  intros (Hroot & Hshape & Hnodup & Hall) Hlayout Hp Hkids Ha Hb.
  destruct (pass_from_root _ _ Hshape Hnodup) as (m' & e & Hcall & Hplaced).
  assert (Relaid nodesMap m') as Hrel
    by (by eapply calculateTreeLayout_relaid).
  unfold recalculateLayout in Hlayout. rewrite <- Hroot, Hcall in Hlayout.
  simpl in Hlayout. injection Hlayout as ->.
  destruct (Relaid_lookup_inv _ _ _ _ Hrel Hp) as (np0 & Hp0 & _).
  destruct (ids_subtrees t p) as (tp & Htp & Hrid); [by eauto|].
  destruct tp as [p' ks]. simpl in Hrid. subst p'.
  assert (Shape nodesMap' (RNode p ks)) as Hshape'.
  { eapply Shape_subtree; [|exact Htp]. by eapply Shape_relaid. }
  inversion Hshape' as [? np' ? Hp' Hcs _]; subst.
  rewrite Hp in Hp'. injection Hp' as <-.
  rewrite Hkids in Hcs. symmetry in Hcs.
  apply fmap_app_inv in Hcs as (l1 & rest & Hl1 & Hrest & ->).
  symmetry in Hrest.
  apply fmap_cons_inv in Hrest as (ta & rest' & Hta & Hrest' & ->).
  symmetry in Hrest'.
  apply fmap_app_inv in Hrest' as (l2 & rest'' & Hl2 & Hrest'' & ->).
  symmetry in Hrest''.
  apply fmap_cons_inv in Hrest'' as (tb & l3 & Htb & Hl3 & ->).
  destruct (Placed_subtree _ _ _ _ _ _ _ Hplaced Htp) as (s' & lvl' & e' & Hpp).
  apply Placed_kids in Hpp as [mids [Hpk|Hnil]];
    [|by destruct l1; discriminate Hnil].
  apply PlacedKids_ordered in Hpk as (na' & nb' & Hna' & Hnb' & Hgap).
  rewrite <- Hta, Ha in Hna'. rewrite <- Htb, Hb in Hnb'.
  injection Hna' as <-. injection Hnb' as <-.
  split; [|done]. unfold NODE_SPACING in Hgap. lra.
Qed.

Lemma two_children_is_tree : IsTree two_children two_children_tree.
Proof.
  split; [done|]. split; [|split].
  - econstructor; [by vm_compute|by vm_compute|].
    repeat constructor; (econstructor; [by vm_compute|by vm_compute|done]).
  - compute_done.
  - by apply keys_listed.
Qed.

Lemma siblings_left_to_right_witness :
  ∃ na nb,
    two_children !! "node-5" = Some na ∧ two_children !! "node-6" = Some nb
    ∧ (x na <= x nb)%Q.
Proof.
  destruct (two_children !! "root") as [np|] eqn:Hp; [|by vm_compute in Hp].
  destruct (two_children !! "node-5") as [na|] eqn:Ha; [|by vm_compute in Ha].
  destruct (two_children !! "node-6") as [nb|] eqn:Hb; [|by vm_compute in Hb].
  exists na, nb. split; [done|]. split; [done|].
  apply (siblings_left_to_right two_children two_children two_children_tree
           "root" "node-5" "node-6" np na nb [] [] []).
  - apply two_children_is_tree.
  - by vm_compute.
  - done.
  - vm_compute in Hp. by injection Hp as <-.
  - done.
  - done.
Defined.
(** * Connector curves: properties *)

Section BranchPath.

Variables parent child : VideoNode.

Lemma midY_between :
  (startY parent < endY child →
   startY parent < midY parent child < endY child)%Q.
Proof.
  unfold midY. intros H. split.
  - apply Qlt_shift_div_l; [reflexivity | lra].
  - apply Qlt_shift_div_r; [reflexivity | lra].
Qed.

Lemma controlY1_fraction :
  (controlY1 parent child - startY parent
   == (6 # 10) * (midY parent child - startY parent))%Q.
Proof. unfold controlY1. ring. Qed.

Lemma controlY2_fraction :
  (endY child - controlY2 parent child
   == (6 # 10) * (endY child - midY parent child))%Q.
Proof. unfold controlY2. ring. Qed.

Lemma controls_ordered :
  (startY parent < endY child →
   startY parent < controlY1 parent child
   ∧ controlY1 parent child < controlY2 parent child
   ∧ controlY2 parent child < endY child)%Q.
Proof.
  intros H. destruct (midY_between H) as [H1 H2].
  unfold controlY1, controlY2. repeat split; lra.
Qed.

Lemma layout_rows_apart :
  (y child == y parent + LEVEL_HEIGHT → startY parent < endY child)%Q.
Proof. unfold startY, endY, LEVEL_HEIGHT. intros ->. lra. Qed.

End BranchPath.

(** C3: the connector starts at the anchor (parent.x, parent.y + 80) and
    ends at the anchor (child.x, child.y - 80).  When the anchors are less
    than 10 apart horizontally the path is the segment "M start L end".
    Otherwise it is the cubic "M start C c1, c2, end" whose control points
    are (startX, controlY1) and (endX, controlY2): each lies on the vertical
    through its anchor, 6/10 of the way from the anchor to the vertical
    midpoint midY = (startY + endY) / 2; for a child one layout row below
    its parent the control points lie strictly between the anchors, so the
    curve leaves the parent and reaches the child vertically. *)
Theorem calculateBranchPath_connector (parent child : VideoNode) :
  (startX parent = x parent ∧ startY parent = (y parent + (80 # 1))%Q
   ∧ endX child = x child ∧ endY child = (y child - (80 # 1))%Q)
  ∧ ((Qabs (endX child - startX parent) < 10 # 1)%Q →
     calculateBranchPath parent child =
       [ Lit "M "; Num (startX parent); Lit " "; Num (startY parent);
         Lit " L "; Num (endX child); Lit " "; Num (endY child) ])
  ∧ ((10 # 1 <= Qabs (endX child - startX parent))%Q →
     calculateBranchPath parent child =
       [ Lit "M "; Num (startX parent); Lit " "; Num (startY parent);
         Lit " "; Lit LF;
         Lit "            C "; Num (startX parent); Lit " ";
         Num (controlY1 parent child); Lit ", "; Lit LF;
         Lit "              "; Num (endX child); Lit " ";
         Num (controlY2 parent child); Lit ", "; Lit LF;
         Lit "              "; Num (endX child); Lit " "; Num (endY child) ]
     ∧ (midY parent child == (startY parent + endY child) / (2 # 1))%Q
     ∧ (controlY1 parent child - startY parent
        == (6 # 10) * (midY parent child - startY parent))%Q
     ∧ (endY child - controlY2 parent child
        == (6 # 10) * (endY child - midY parent child))%Q
     ∧ ((y child == y parent + LEVEL_HEIGHT)%Q →
        (startY parent < controlY1 parent child
         ∧ controlY1 parent child < controlY2 parent child
         ∧ controlY2 parent child < endY child)%Q)).
Proof.
  split; [done|]. split.
  - intros Hnear. unfold calculateBranchPath.
    destruct (Qlt_le_dec _ _) as [_|Hfar]; [done|].
    exfalso. apply (Qlt_irrefl (10 # 1)). eapply Qle_lt_trans; eauto.
  - intros Hfar. split; [|split; [|split; [|split]]].
    + unfold calculateBranchPath.
      destruct (Qlt_le_dec _ _) as [Hnear|_]; [|done].
      exfalso. apply (Qlt_irrefl (10 # 1)). eapply Qle_lt_trans; eauto.
    + reflexivity.
    + apply controlY1_fraction.
    + apply controlY2_fraction.
    + intros Hrow. apply controls_ordered, layout_rows_apart, Hrow.
Qed.

Lemma calculateBranchPath_connector_witness :
  (startY sample_parent < controlY1 sample_parent sample_child
   ∧ controlY1 sample_parent sample_child
     < controlY2 sample_parent sample_child
   ∧ controlY2 sample_parent sample_child < endY sample_child)%Q.
Proof.
  destruct (calculateBranchPath_connector sample_parent sample_child)
    as (_ & _ & Hcurve).
  destruct Hcurve as (_ & _ & _ & _ & Hin); [by vm_compute|].
  apply Hin. by vm_compute.
Defined.

(** C9 as stated fails for [calculatePath]: with the parent and the child
    where they were, the path of an only child differs from the path of the
    first of two children. *)
Lemma calculatePath_depends_on_siblings :
  FixedOffset.calculatePath FixedOffset.root_node FixedOffset.root_node 0 1
  ≠ FixedOffset.calculatePath FixedOffset.root_node FixedOffset.root_node 0 2.
Proof. discriminate. Qed.

(** C9, amended: curve generation is a function of its arguments.  The path
    of [calculateBranchPath] is determined by the positions of parent and
    child alone; the path of [calculatePath] is determined by the two
    positions together with the sibling index and the sibling count. *)
Theorem path_determined_by_positions
    (parent parent' child child' : VideoNode)
    (fparent fparent' fchild fchild' : FixedOffset.VideoNode)
    (siblingIndex totalSiblings : nat) :
  x parent = x parent' → y parent = y parent' →
  x child = x child' → y child = y child' →
  FixedOffset.x fparent = FixedOffset.x fparent' →
  FixedOffset.y fparent = FixedOffset.y fparent' →
  FixedOffset.x fchild = FixedOffset.x fchild' →
  FixedOffset.y fchild = FixedOffset.y fchild' →
  calculateBranchPath parent child = calculateBranchPath parent' child'
  ∧ (∀ show, render show (calculateBranchPath parent child)
             = render show (calculateBranchPath parent' child'))
  ∧ FixedOffset.calculatePath fparent fchild siblingIndex totalSiblings
    = FixedOffset.calculatePath fparent' fchild' siblingIndex totalSiblings.
Proof.
  intros Hpx Hpy Hcx Hcy Hfpx Hfpy Hfcx Hfcy.
  assert (calculateBranchPath parent child
          = calculateBranchPath parent' child') as Heq.
  { unfold calculateBranchPath, controlY1, controlY2, midY,
      startX, startY, endX, endY.
    by rewrite Hpx, Hpy, Hcx, Hcy. }
  split; [done|]. split.
  - intros show. by rewrite Heq.
  - unfold FixedOffset.calculatePath. by rewrite Hfpx, Hfpy, Hfcx, Hfcy.
Qed.

Lemma path_determined_by_positions_witness :
  calculateBranchPath sample_parent sample_child
  = calculateBranchPath (with_videoUrl sample_parent "blob:1")
                        (with_children sample_child ["b"]).
Proof.
  apply (path_determined_by_positions
           sample_parent (with_videoUrl sample_parent "blob:1")
           sample_child (with_children sample_child ["b"])
           FixedOffset.root_node FixedOffset.root_node
           FixedOffset.root_node FixedOffset.root_node 0 1);
    reflexivity.
Defined.

(** * Tree store: properties *)

(** C7 as stated fails: on the initial state, [addChild] of an id that is
    not in the mapping throws. *)
Lemma addChildNode_missing_parent_throws_at_reset :
  reset !! "ghost" = None
  ∧ addChildNode reset "ghost" 5 = Throw TypeError
  ∧ addChildNode reset "ghost" 5 ≠ NoUpdate
  ∧ ∀ nodes', addChildNode reset "ghost" 5 ≠ SetNodes nodes'.
Proof. repeat split; done. Qed.

(** C7, amended: for every state and every parent id that is not in the
    mapping, [addChild] throws a TypeError (the read of [parent.x] on
    [undefined]) before [setNodes] is reached, so the node mapping is left
    as it was. *)
Theorem addChildNode_missing_parent_throws
    (nodes : Nodes) (parentId : string) (now : Z) :
  nodes !! parentId = None →
  addChildNode nodes parentId now = Throw TypeError
  ∧ commit nodes (addChildNode nodes parentId now) = nodes.
Proof. intros Hmiss. unfold addChildNode. by rewrite Hmiss. Qed.

Lemma addChildNode_missing_parent_throws_witness :
  addChildNode reset "ghost" 5 = Throw TypeError
  ∧ commit reset (addChildNode reset "ghost" 5) = reset.
Proof. apply addChildNode_missing_parent_throws. reflexivity. Defined.

(** C8: for an existing node, a resource that fails the video-type check
    (or no resource at all) makes [attachMedia] return without calling
    [setNodes]: the mapping, and with it every [videoUrl], coordinate and
    the node count, is what it was.  A resource that passes the check sets
    [videoUrl] on the addressed node, leaves every other field of that node
    and every other node as they were, and so changes no position and no
    node count. *)
Theorem handleFileSelect_effect
    (prev : Nodes) (nodeId : string) (n : VideoNode)
    (file : option File) (url : string) :
  prev !! nodeId = Some n →
  let after := commit prev (handleFileSelect prev nodeId file url) in
  ((file = None ∨ ∃ f, file = Some f ∧ String.prefix "video/" (type f) = false) →
   handleFileSelect prev nodeId file url = NoUpdate
   ∧ after = prev
   ∧ after !! nodeId = Some n
   ∧ (videoUrl n = None → videoUrl <$> after !! nodeId = Some None)
   ∧ size after = size prev)
  ∧ ((∃ f, file = Some f ∧ String.prefix "video/" (type f) = true) →
     handleFileSelect prev nodeId file url
       = SetNodes (<[nodeId := with_videoUrl n url]> prev)
     ∧ after !! nodeId = Some (with_videoUrl n url)
     ∧ videoUrl (with_videoUrl n url) = Some url
     ∧ (∀ j, j ≠ nodeId → after !! j = prev !! j)
     ∧ (∀ j, x <$> after !! j = x <$> prev !! j
             ∧ y <$> after !! j = y <$> prev !! j
             ∧ level <$> after !! j = level <$> prev !! j)
     ∧ size after = size prev).
Proof.
  intros Hn after. split.
  - intros Hfail.
    assert (handleFileSelect prev nodeId file url = NoUpdate) as Hout.
    { unfold handleFileSelect.
      destruct Hfail as [->|(f & -> & Hty)]; [done|]. by rewrite Hty. }
    subst after. rewrite Hout. simpl. repeat split; try done.
    intros Hnone. by rewrite Hn, <- Hnone.
  - intros (f & -> & Hty).
    assert (handleFileSelect prev nodeId (Some f) url
            = SetNodes (<[nodeId := with_videoUrl n url]> prev)) as Hout.
    { unfold handleFileSelect. by rewrite Hty, Hn. }
    subst after. rewrite Hout. simpl. repeat split; try done.
    + apply lookup_insert_eq.
    + intros j Hj. by apply lookup_insert_ne.
    + destruct (decide (j = nodeId)) as [->|Hj].
      * by rewrite lookup_insert_eq, Hn.
      * by rewrite lookup_insert_ne.
    + destruct (decide (j = nodeId)) as [->|Hj].
      * by rewrite lookup_insert_eq, Hn.
      * by rewrite lookup_insert_ne.
    + destruct (decide (j = nodeId)) as [->|Hj].
      * by rewrite lookup_insert_eq, Hn.
      * by rewrite lookup_insert_ne.
    + apply map_size_insert_Some. eauto.
Qed.

Lemma handleFileSelect_effect_witness :
  handleFileSelect reset "root" (Some {| type := "image/png" |}) "blob:1"
    = NoUpdate
  ∧ handleFileSelect reset "root" (Some {| type := "video/mp4" |}) "blob:1"
    = SetNodes (<["root" := with_videoUrl root_node "blob:1"]> reset).
Proof.
  pose proof (handleFileSelect_effect reset "root" root_node
                (Some {| type := "image/png" |}) "blob:1" eq_refl) as [H1 _].
  pose proof (handleFileSelect_effect reset "root" root_node
                (Some {| type := "video/mp4" |}) "blob:1" eq_refl) as [_ H2].
  split.
  - apply H1. right. eexists. split; reflexivity.
  - apply H2. eexists. split; reflexivity.
Defined.

(** ** Ids made from [Date.now()] *)

Lemma newIdAt_inj (now now' : Z) : newIdAt now = newIdAt now' → now = now'.
Proof.
  unfold newIdAt. intros H. apply (inj pretty).
  by apply (inj (String.app "node-")) in H.
Qed.

Lemma newIdAt_not_root (now : Z) : newIdAt now ≠ "root".
Proof. discriminate. Qed.

(** C6, at the failing input: a second [addChild] during the millisecond of
    the first one is given the id of the node the first one made.  That
    node is in the mapping when the call is made; the call replaces it, and
    the mapping still has two nodes.  Both variants of the component do
    this. *)
Theorem addChild_same_tick_reuses_id :
  (is_Some (one_child !! newIdAt 5)
   ∧ ∃ nodes' n',
       addChildNode one_child "root" 5 = SetNodes nodes'
       ∧ nodes' !! newIdAt 5 = Some n'
       ∧ id n' = newIdAt 5
       ∧ color <$> one_child !! newIdAt 5 = Some (COLORS_at 1)
       ∧ color n' = COLORS_at 2
       ∧ size one_child = 2%nat ∧ size nodes' = 2%nat)
  ∧ (∃ nodes1 nodes2,
       fixed_one_child = Some nodes1
       ∧ is_Some (nodes1 !! newIdAt 5)
       ∧ fixed_same_tick = Some nodes2
       ∧ size nodes1 = 2%nat ∧ size nodes2 = 2%nat).
Proof.
  split.
  - split; [by vm_compute; eauto|].
    destruct (same_tick !! newIdAt 5) as [n'|] eqn:Hn'; [|by vm_compute in Hn'].
    exists same_tick, n'. split; [by vm_compute|]. split; [done|].
    vm_compute in Hn'. injection Hn' as <-. by vm_compute.
  - destruct fixed_one_child as [nodes1|] eqn:H1; [|by vm_compute in H1].
    destruct fixed_same_tick as [nodes2|] eqn:H2; [|by vm_compute in H2].
    exists nodes1, nodes2. split; [done|].
    vm_compute in H1. injection H1 as <-.
    vm_compute in H2. injection H2 as <-.
    split; [by vm_compute; eauto|]. by vm_compute.
Qed.

(** C10, at the failing input: the tree holds the root and the child made
    at [Date.now() = 5]; [addChild] on the root, again at 5, gives the new
    node the id of that child.  The child is a node that was there before
    the call and it does not keep its color: the call replaces it by the
    new node. *)
Theorem addChild_same_tick_overwrites_node :
  ∃ before nodes' after,
    one_child !! "node-5" = Some before
    ∧ is_Some (one_child !! "root")
    ∧ addChildNode one_child "root" 5 = SetNodes nodes'
    ∧ nodes' !! "node-5" = Some after
    ∧ color before = "#D946EF" ∧ color after = "#F97316"
    ∧ color after ≠ color before.
Proof.
  destruct (one_child !! "node-5") as [before|] eqn:Hb; [|by vm_compute in Hb].
  destruct (same_tick !! "node-5") as [after|] eqn:Ha; [|by vm_compute in Ha].
  exists before, same_tick, after.
  split; [done|]. split; [by vm_compute; eauto|].
  split; [by vm_compute|]. split; [done|].
  vm_compute in Hb. injection Hb as <-.
  vm_compute in Ha. injection Ha as <-.
  by vm_compute.
Qed.

(** C4, at the failing input: both [addChild] calls on the root happen
    while [Date.now()] is 5.  Then C1 and C2 are one node, listed twice
    under the root; its color is palette[2], not palette[1]; its x is 300
    while R.x is 200, so R.x is not the mean of C1.x and C2.x, and C1.x is
    not below C2.x. *)
Theorem two_children_same_tick :
  ∃ r c,
    same_tick !! "root" = Some r
    ∧ children r = [newIdAt 5; newIdAt 5]
    ∧ same_tick !! newIdAt 5 = Some c
    ∧ level c = 1
    ∧ color c = COLORS_at (2 mod length COLORS)
    ∧ color c ≠ COLORS_at (1 mod length COLORS)
    ∧ (x c == 300 # 1)%Q ∧ (x r == 200 # 1)%Q
    ∧ ¬ (x r == (x c + x c) / (2 # 1))%Q
    ∧ ¬ (x c < x c)%Q.
Proof.
  destruct (same_tick !! "root") as [r|] eqn:Hr; [|by vm_compute in Hr].
  destruct (same_tick !! newIdAt 5) as [c|] eqn:Hc; [|by vm_compute in Hc].
  exists r, c. split; [done|].
  vm_compute in Hr. injection Hr as <-.
  vm_compute in Hc. injection Hc as <-.
  repeat split; try done; by vm_compute.
Qed.

(** C2, at the failing input: after [reset], [addChild] on the root at
    [Date.now() = 5] and then [addChild] on the node just made, again at 5.
    The second call is addressed to an existing node; the node it makes
    takes that node's place and names itself as its parent, so its depth is
    not its parent's depth plus 1 and the mapping is no tree. *)
Theorem addChild_same_tick_breaks_tree :
  is_Some (reset !! "root")
  ∧ is_Some (one_child !! "node-5")
  ∧ (∃ n, same_tick_below !! "node-5" = Some n
          ∧ parentId n = Some "node-5"
          ∧ level n ≠ level n + 1)
  ∧ ¬ SingleTree same_tick_below.
Proof.
  split; [by vm_compute; eauto|]. split; [by vm_compute; eauto|].
  destruct (same_tick_below !! "node-5") as [n|] eqn:Hn;
    [|by vm_compute in Hn].
  assert (parentId n = Some "node-5") as Hp.
  { vm_compute in Hn. by injection Hn as <-. }
  split.
  - exists n. split; [reflexivity|]. split; [exact Hp|]. lia.
  - intros Htree. pose proof (depth_step _ Htree _ _ _ _ Hn Hp Hn). lia.
Qed.

(** C5, at the failing input: after [reset], the root gets two children
    while [Date.now()] is 1 and 2; at 5 a child is added under node-2 and,
    in the same millisecond, under node-1; at 6 another child is added
    under node-1.  Every call is addressed to an existing node and the
    clock never goes back.  The call under node-1 at 5 reuses the id
    node-5, which node-2 still lists, so the pass visits node-5 a second
    time below node-2 and leaves it there.  Then node-1 lists node-5 before
    node-6, both are leaves with [parentId] node-1, their slots
    [500, 700) and [300, 500) do not overlap, and position(node-5).x = 500
    is not <= position(node-6).x = 300. *)
Theorem siblings_out_of_order_after_reuse :
  is_Some (run [("root", 1); ("root", 2)] reset !! "node-2")
  ∧ is_Some (run [("root", 1); ("root", 2); ("node-2", 5)] reset !! "node-1")
  ∧ ∃ p a b,
    reused_under_two !! "node-1" = Some p
    ∧ children p = ["node-5"; "node-6"]
    ∧ reused_under_two !! "node-5" = Some a
    ∧ reused_under_two !! "node-6" = Some b
    ∧ parentId a = Some "node-1" ∧ parentId b = Some "node-1"
    ∧ children a = [] ∧ children b = []
    ∧ (x a == 500 # 1)%Q ∧ (x b == 300 # 1)%Q
    ∧ (x b + NODE_SPACING <= x a)%Q
    ∧ ¬ (x a <= x b)%Q.
Proof.
  split; [vm_compute; eexists; reflexivity|].
  split; [vm_compute; eexists; reflexivity|].
  destruct (reused_under_two !! "node-1") as [p|] eqn:Hp;
    [|vm_compute in Hp; discriminate Hp].
  destruct (reused_under_two !! "node-5") as [a|] eqn:Ha;
    [|vm_compute in Ha; discriminate Ha].
  destruct (reused_under_two !! "node-6") as [b|] eqn:Hb;
    [|vm_compute in Hb; discriminate Hb].
  exists p, a, b. split; [reflexivity|].
  vm_compute in Hp. injection Hp as <-.
  vm_compute in Ha. injection Ha as <-.
  vm_compute in Hb. injection Hb as <-.
  split; [reflexivity|]. split; [reflexivity|]. split; [reflexivity|].
  split; [reflexivity|]. split; [reflexivity|]. split; [reflexivity|].
  split; [reflexivity|]. split; [reflexivity|]. split; [reflexivity|].
  split; [by vm_compute|]. by vm_compute.
Qed.

(** * Layout engine: further properties *)

(** What [Placed] says about every node of the tree: it is in the mapping,
    within the cursor span of the pass, not above the depth of the pass,
    and on the row of its level. *)
Lemma Placed_nodes_mutual (m : Nodes) :
  (∀ t s lvl e, Placed childPosition m t s lvl e →
     ∀ j, j ∈ ids t →
       ∃ n, m !! j = Some n
            ∧ (s <= x n)%Q ∧ (x n + NODE_SPACING <= e)%Q
            ∧ lvl ≤ level n
            ∧ (y n == (100 # 1) + inject_Z (level n) * LEVEL_HEIGHT)%Q
            ∧ (level n = lvl → j = rid t))
  ∧ (∀ ks s lvl mids e, PlacedKids childPosition m ks s lvl mids e →
     ∀ j, j ∈ flat_map ids ks →
       ∃ n, m !! j = Some n
            ∧ (s <= x n)%Q ∧ (x n + NODE_SPACING <= e)%Q
            ∧ lvl ≤ level n
            ∧ (y n == (100 # 1) + inject_Z (level n) * LEVEL_HEIGHT)%Q).
Proof.
  apply Placed_mutual.
  - intros i n s lvl Hn Hx Hy Hl j Hj. simpl in Hj.
    apply list_elem_of_singleton in Hj as ->.
    exists n. rewrite Hx, Hl. repeat split; try done; try apply Qle_refl; try lia.
  - intros i n k ks s lvl mids e Hn Hkids IH Hx Hy Hl j Hj.
    simpl in Hj. apply elem_of_cons in Hj as [->|Hj].
    + destruct (proj2 (Placed_bounds_mutual m) _ _ _ _ _ Hkids)
        as (_ & Hne & Hmids).
      destruct Hne as [Hmne Hgap]; [done|].
      destruct (mean_bounds _ _ _ Hmne Hmids) as [Hlo Hhi].
      exists n. rewrite Hx, Hl. unfold NODE_SPACING in *.
      repeat split; try done; try lra; try lia.
    + destruct (IH j Hj) as (nj & Hnj & ? & ? & ? & ?).
      exists nj. repeat split; try done; try lia.
  - intros s lvl j Hj. by apply elem_of_nil in Hj.
  - intros k ks s lvl e1 mids e Hk IHk Hks IHks j Hj.
    simpl in Hj. apply elem_of_app in Hj as [Hj|Hj].
    + destruct (IHk j Hj) as (n & Hn & ? & ? & ? & ? & _).
      apply PlacedKids_cursor in Hks.
      exists n. repeat split; try done; try lra.
    + destruct (IHks j Hj) as (n & Hn & ? & ? & ? & ?).
      apply (proj1 (Placed_bounds_mutual m)) in Hk as [Hgap _].
      exists n. unfold NODE_SPACING in *. repeat split; try done; try lra.
Qed.

Lemma Placed_separated_mutual (m : Nodes) :
  (∀ t s lvl e, Placed childPosition m t s lvl e →
     ∀ j1 j2 n1 n2, j1 ∈ ids t → j2 ∈ ids t → j1 ≠ j2 →
       m !! j1 = Some n1 → m !! j2 = Some n2 → level n1 = level n2 →
       apart n1 n2)
  ∧ (∀ ks s lvl mids e, PlacedKids childPosition m ks s lvl mids e →
     ∀ j1 j2 n1 n2, j1 ∈ flat_map ids ks → j2 ∈ flat_map ids ks → j1 ≠ j2 →
       m !! j1 = Some n1 → m !! j2 = Some n2 → level n1 = level n2 →
       apart n1 n2).
Proof.
  apply Placed_mutual.
  - intros i n s lvl _ _ _ _ j1 j2 n1 n2 H1 H2 Hne. simpl in H1, H2.
    apply list_elem_of_singleton in H1, H2. congruence.
  - intros i n k ks s lvl mids e Hn Hkids IH _ _ Hl j1 j2 n1 n2 H1 H2 Hne
      Hn1 Hn2 Hlev.
    simpl in H1, H2. apply elem_of_cons in H1, H2.
    destruct H1 as [->|H1], H2 as [->|H2]; [done| | |by eauto].
    + destruct (proj2 (Placed_nodes_mutual m) _ _ _ _ _ Hkids j2 H2)
        as (n2' & Hn2' & _ & _ & Hge & _).
      assert (n1 = n) by congruence. assert (n2' = n2) by congruence.
      subst. lia.
    + destruct (proj2 (Placed_nodes_mutual m) _ _ _ _ _ Hkids j1 H1)
        as (n1' & Hn1' & _ & _ & Hge & _).
      assert (n2 = n) by congruence. assert (n1' = n1) by congruence.
      subst. lia.
  - intros s lvl j1 j2 n1 n2 H1. by apply elem_of_nil in H1.
  - intros k ks s lvl e1 mids e Hk IHk Hks IHks j1 j2 n1 n2 H1 H2 Hne
      Hn1 Hn2 Hlev.
    simpl in H1, H2. apply elem_of_app in H1, H2.
    destruct H1 as [H1|H1], H2 as [H2|H2]; [by eauto| | |by eauto].
    + destruct (proj1 (Placed_nodes_mutual m) _ _ _ _ Hk j1 H1)
        as (n1' & Hn1' & _ & Hx1 & _).
      destruct (proj2 (Placed_nodes_mutual m) _ _ _ _ _ Hks j2 H2)
        as (n2' & Hn2' & Hx2 & _).
      assert (n1' = n1) by congruence. assert (n2' = n2) by congruence.
      subst. left. lra.
    + destruct (proj1 (Placed_nodes_mutual m) _ _ _ _ Hk j2 H2)
        as (n2' & Hn2' & _ & Hx2 & _).
      destruct (proj2 (Placed_nodes_mutual m) _ _ _ _ _ Hks j1 H1)
        as (n1' & Hn1' & Hx1 & _).
      assert (n1' = n1) by congruence. assert (n2' = n2) by congruence.
      subst. right. lra.
Qed.

(** The cursor a pass returns: one slot per leaf. *)
Lemma Placed_extent_mutual (m : Nodes) :
  (∀ t s lvl e, Placed childPosition m t s lvl e →
     (e == s + NODE_SPACING * inject_Z (Z.of_nat (leaves t)))%Q)
  ∧ (∀ ks s lvl mids e, PlacedKids childPosition m ks s lvl mids e →
     (e == s + NODE_SPACING
               * inject_Z (Z.of_nat (sum_list (leaves <$> ks))))%Q).
Proof.
  apply Placed_mutual.
  - intros. simpl. ring.
  - intros i n k ks s lvl mids e _ _ IH _ _ _. exact IH.
  - intros. simpl. ring.
  - intros k ks s lvl e1 mids e _ IHk _ IHks.
    rewrite fmap_cons. simpl sum_list.
    rewrite Nat2Z.inj_add, inject_Z_plus, IHks, IHk. ring.
Qed.

(** ** A pass does not read coordinates *)

Lemma same_links_sym (n n' : VideoNode) : same_links n n' → same_links n' n.
Proof. intros (?&?&?&?&?). by repeat split. Qed.

Lemma Relaid_sym (m m' : Nodes) : Relaid m m' → Relaid m' m.
Proof.
  intros H j. specialize (H j). inversion H; constructor.
  by apply same_links_sym.
Qed.

Lemma same_links_coords (n n' : VideoNode) :
  same_links n n' → coords n = coords n' → n = n'.
Proof.
  destruct n, n'. unfold same_links, coords. simpl.
  intros (?&?&?&?&?) [= ? ? ?]. by subst.
Qed.

Lemma Agree_refl (m1 m2 : Nodes) : Agree m1 m2 m1 m2.
Proof. intros j. by left. Qed.

Lemma Agree_trans (m1 m2 m1a m2a m1' m2' : Nodes) :
  Agree m1 m2 m1a m2a → Agree m1a m2a m1' m2' → Agree m1 m2 m1' m2'.
Proof.
  intros H1 H2 j. destruct (H2 j) as [[Ha Hb]|Hc]; [|by right].
  destruct (H1 j) as [[Ha' Hb']|Hc'].
  - left. split; congruence.
  - right. congruence.
Qed.

Lemma Agree_place (m1 m2 : Nodes) (i : string) (vx : Q) (lvl : Z) :
  Relaid m1 m2 →
  Agree m1 m2 (alter (fun n => place n vx lvl) i m1)
              (alter (fun n => place n vx lvl) i m2).
Proof.
  intros Hrel j. destruct (decide (i = j)) as [->|Hne].
  - right. rewrite !lookup_alter_eq. specialize (Hrel j).
    inversion Hrel; done.
  - left. by rewrite !lookup_alter_ne.
Qed.

Lemma layoutChildren_agree
    (layout : string → Nodes → Q → option (Nodes * Q)) :
  (∀ c m1 m2 cur m1' e,
     Relaid m1 m2 → layout c m1 cur = Some (m1', e) →
     ∃ m2', layout c m2 cur = Some (m2', e) ∧ Agree m1 m2 m1' m2'
            ∧ Relaid m1' m2') →
  ∀ ks m1 m2 cur acc m1' e mids,
    Relaid m1 m2 →
    layoutChildren layout ks m1 cur acc = Some (m1', e, mids) →
    ∃ m2', layoutChildren layout ks m2 cur acc = Some (m2', e, mids)
           ∧ Agree m1 m2 m1' m2' ∧ Relaid m1' m2'.
Proof.
  intros Hlayout ks.
  induction ks as [|c ks IH]; intros m1 m2 cur acc m1' e mids Hrel.
  - simpl. intros [= <- <- <-]. exists m2.
    split; [done|]. split; [apply Agree_refl|done].
  - simpl. destruct (layout c m1 cur) as [[m1a ea]|] eqn:Hc; [|done].
    intros Hrest.
    destruct (Hlayout _ _ _ _ _ _ Hrel Hc) as (m2a & Hc2 & Hag & Hrela).
    destruct (IH _ _ _ _ _ _ _ Hrela Hrest) as (m2' & Hrest2 & Hag' & Hrel').
    exists m2'. rewrite Hc2. split; [done|].
    split; [by eapply Agree_trans|done].
Qed.

Lemma calculateTreeLayout_agree (fuel : nat) :
  ∀ i m1 m2 s lvl m1' e,
    Relaid m1 m2 →
    calculateTreeLayout fuel i m1 s lvl = Some (m1', e) →
    ∃ m2', calculateTreeLayout fuel i m2 s lvl = Some (m2', e)
           ∧ Agree m1 m2 m1' m2' ∧ Relaid m1' m2'.
Proof.
  induction fuel as [|fuel IH]; intros i m1 m2 s lvl m1' e Hrel; [done|].
  rewrite !calculateTreeLayout_unfold.
  pose proof (Hrel i) as Hi.
  destruct Hi as [n1 n2 Hsame|].
  - destruct Hsame as (_ & _ & _ & _ & Hkids). rewrite <- Hkids.
    destruct (children n1) as [|c cs] eqn:Hcs.
    + intros [= <- <-]. eexists. split; [done|].
      split; [by apply Agree_place|].
      eapply Relaid_trans; [apply Relaid_sym, Relaid_place|].
      eapply Relaid_trans; [exact Hrel|apply Relaid_place].
    + destruct (layoutChildren _ _ m1 _ _) as [[[m1a ea] mids]|] eqn:Hloop;
        [|done].
      intros [= <- <-].
      destruct (layoutChildren_agree _
                  (fun c m1 m2 cur m1' e => IH c m1 m2 cur (lvl + 1) m1' e)
                  _ _ _ _ _ _ _ _ Hrel Hloop)
        as (m2a & Hloop2 & Hag & Hrela).
      rewrite Hloop2. eexists. split; [done|]. split.
      * eapply Agree_trans; [exact Hag|by apply Agree_place].
      * eapply Relaid_trans; [apply Relaid_sym, Relaid_place|].
        eapply Relaid_trans; [exact Hrela|apply Relaid_place].
  - intros [= <- <-]. exists m2. split; [done|].
    split; [apply Agree_refl|done].
Qed.

(** X4: a layout pass that returns rewrites coordinates only: the result
    has the keys of its argument (no node is added or dropped) and every
    node keeps [id], [videoUrl], [color], [parentId] and [children]. *)
Theorem recalculateLayout_rewrites_coordinates_only
    (nodesMap nodesMap' : Nodes) :
  recalculateLayout nodesMap = Some nodesMap' →
  size nodesMap' = size nodesMap
  ∧ (∀ j, is_Some (nodesMap' !! j) ↔ is_Some (nodesMap !! j))
  ∧ (∀ j n, nodesMap !! j = Some n →
       ∃ n', nodesMap' !! j = Some n'
             ∧ id n' = id n ∧ videoUrl n' = videoUrl n ∧ color n' = color n
             ∧ parentId n' = parentId n ∧ children n' = children n).
Proof.
  unfold recalculateLayout.
  destruct (calculateTreeLayout _ _ _ _ _) as [[m' e]|] eqn:Hcall; [|done].
  simpl. intros [= <-].
  assert (Relaid nodesMap m') as Hrel
    by (by eapply calculateTreeLayout_relaid).
  split; [by rewrite (Relaid_size _ _ Hrel)|]. split.
  - intros j. specialize (Hrel j).
    inversion Hrel; split; intros [? ?]; by eauto || congruence.
  - intros j n Hn.
    destruct (Relaid_lookup _ _ _ _ Hrel Hn) as (n' & Hn' & (?&?&?&?&?)).
    exists n'. by repeat split.
Qed.

Lemma recalculateLayout_rewrites_coordinates_only_witness :
  ∃ nodesMap', recalculateLayout reset = Some nodesMap'
               ∧ size nodesMap' = size reset.
Proof.
  destruct (recalculateLayout reset) as [m'|] eqn:H; [|by vm_compute in H].
  exists m'. split; [reflexivity|].
  exact (proj1 (recalculateLayout_rewrites_coordinates_only _ _ H)).
Defined.

(** X5: after a layout pass over a tree, two different nodes of the same
    level are on the same row (equal y) and at least NODE_SPACING apart
    in x: no two nodes of a row overlap. *)
Theorem same_row_nodes_apart
    (nodesMap nodesMap' : Nodes) (t : rtree) (j1 j2 : string)
    (n1 n2 : VideoNode) :
  IsTree nodesMap t →
  recalculateLayout nodesMap = Some nodesMap' →
  j1 ≠ j2 →
  nodesMap' !! j1 = Some n1 → nodesMap' !! j2 = Some n2 →
  level n1 = level n2 →
  apart n1 n2 ∧ (y n1 == y n2)%Q.
Proof.
  intros (Hroot & Hshape & Hnodup & Hall) Hlayout Hne Hn1 Hn2 Hlev.
  destruct (pass_from_root _ _ Hshape Hnodup) as (m' & e & Hcall & Hplaced).
  assert (Relaid nodesMap m') as Hrel
    by (by eapply calculateTreeLayout_relaid).
  unfold recalculateLayout in Hlayout. rewrite <- Hroot, Hcall in Hlayout.
  simpl in Hlayout. injection Hlayout as ->.
  assert (∀ j n, nodesMap' !! j = Some n → j ∈ ids t) as Hin.
  { intros j n Hn. destruct (Relaid_lookup_inv _ _ _ _ Hrel Hn) as (? & ? & _).
    eauto. }
  split.
  - apply (proj1 (Placed_separated_mutual nodesMap') _ _ _ _ Hplaced
             j1 j2 n1 n2); by eauto.
  - destruct (proj1 (Placed_nodes_mutual nodesMap') _ _ _ _ Hplaced j1)
      as (n1' & Hn1' & _ & _ & _ & Hy1 & _); [by eauto|].
    destruct (proj1 (Placed_nodes_mutual nodesMap') _ _ _ _ Hplaced j2)
      as (n2' & Hn2' & _ & _ & _ & Hy2 & _); [by eauto|].
    assert (n1' = n1) as -> by congruence.
    assert (n2' = n2) as -> by congruence.
    by rewrite Hy1, Hy2, Hlev.
Qed.

Lemma same_row_nodes_apart_witness :
  ∃ n1 n2,
    two_children !! "node-5" = Some n1 ∧ two_children !! "node-6" = Some n2
    ∧ apart n1 n2.
Proof.
  destruct (two_children !! "node-5") as [n1|] eqn:H1; [|by vm_compute in H1].
  destruct (two_children !! "node-6") as [n2|] eqn:H2; [|by vm_compute in H2].
  exists n1, n2. split; [done|]. split; [done|].
  apply (same_row_nodes_apart two_children two_children two_children_tree
           "node-5" "node-6" n1 n2).
  - apply two_children_is_tree.
  - by vm_compute.
  - done.
  - done.
  - done.
  - vm_compute in H1, H2. injection H1 as <-. by injection H2 as <-.
Defined.

(** X6: the pass over a tree returns the cursor
    100 + NODE_SPACING * (number of leaves), and it places every node at
    100 <= x <= cursor - NODE_SPACING, on the row
    y = 100 + level * LEVEL_HEIGHT with level >= 0; only the root is at
    level 0. *)
Theorem layout_extent (nodesMap : Nodes) (t : rtree) :
  IsTree nodesMap t →
  ∃ nodesMap' e,
    calculateTreeLayout (S (size nodesMap)) "root" nodesMap (100 # 1) 0
      = Some (nodesMap', e)
    ∧ recalculateLayout nodesMap = Some nodesMap'
    ∧ (e == (100 # 1) + NODE_SPACING * inject_Z (Z.of_nat (leaves t)))%Q
    ∧ ∀ j n, nodesMap' !! j = Some n →
        (100 # 1 <= x n)%Q ∧ (x n + NODE_SPACING <= e)%Q
        ∧ 0 ≤ level n
        ∧ (y n == (100 # 1) + inject_Z (level n) * LEVEL_HEIGHT)%Q
        ∧ (level n = 0 → j = "root").
Proof.
  intros (Hroot & Hshape & Hnodup & Hall).
  destruct (pass_from_root _ _ Hshape Hnodup) as (m' & e & Hcall & Hplaced).
  assert (Relaid nodesMap m') as Hrel
    by (by eapply calculateTreeLayout_relaid).
  rewrite Hroot in Hcall. exists m', e. split; [done|].
  split; [unfold recalculateLayout; by rewrite Hcall|].
  split; [by apply (proj1 (Placed_extent_mutual m')) in Hplaced|].
  intros j n Hn.
  destruct (Relaid_lookup_inv _ _ _ _ Hrel Hn) as (n0 & Hn0 & _).
  destruct (proj1 (Placed_nodes_mutual m') _ _ _ _ Hplaced j)
    as (n' & Hn' & ? & ? & ? & ? & Hr); [by eauto|].
  assert (n' = n) as -> by congruence.
  rewrite Hroot in Hr. by repeat split.
Qed.

Lemma layout_extent_witness :
  ∃ nodesMap' e,
    recalculateLayout two_children = Some nodesMap'
    ∧ (e == (100 # 1) + NODE_SPACING * (2 # 1))%Q.
Proof.
  destruct (layout_extent two_children two_children_tree)
    as (m' & e & _ & Hl & He & _).
  - apply two_children_is_tree.
  - exists m', e. split; [exact Hl|exact He].
Defined.

(** X7: [recalculateLayout] is idempotent: laying out a mapping it has
    returned returns that mapping again.  This holds for every mapping on
    which the pass returns, tree or not. *)
Theorem recalculateLayout_idempotent (nodesMap nodesMap' : Nodes) :
  recalculateLayout nodesMap = Some nodesMap' →
  recalculateLayout nodesMap' = Some nodesMap'.
Proof.
  unfold recalculateLayout. intros H.
  destruct (calculateTreeLayout _ _ nodesMap _ _) as [[m' e]|] eqn:Hcall;
    [|done].
  simpl in H. injection H as <-.
  assert (Relaid nodesMap m') as Hrel
    by (by eapply calculateTreeLayout_relaid).
  destruct (calculateTreeLayout_agree _ _ _ _ _ _ _ _ Hrel Hcall)
    as (m2 & Hcall2 & Hag & Hrel2).
  rewrite <- (Relaid_size _ _ Hrel), Hcall2. simpl. f_equal.
  apply map_eq. intros j. destruct (Hag j) as [[_ ->]|Hc]; [done|].
  specialize (Hrel2 j). inversion Hrel2 as [n n2 Hsame Hn Hn2|]; [|done].
  rewrite <- Hn, <- Hn2 in Hc. apply (inj Some) in Hc.
  f_equal. symmetry. by apply same_links_coords.
Qed.

Lemma recalculateLayout_idempotent_witness :
  ∃ nodesMap', recalculateLayout reset = Some nodesMap'
               ∧ recalculateLayout nodesMap' = Some nodesMap'.
Proof.
  destruct (recalculateLayout reset) as [m'|] eqn:H; [|by vm_compute in H].
  exists m'. split; [reflexivity|].
  exact (recalculateLayout_idempotent _ _ H).
Defined.

(** X8: a layout pass does not read [x], [y] or [level].  If two mappings
    differ in these fields only and the pass returns on the first, it
    returns on the second, and under every key the two results carry the
    same coordinates, unless the key is out of reach of the pass, which
    then left it as it was in both. *)
Theorem recalculateLayout_ignores_coordinates
    (nodesMap1 nodesMap2 nodesMap1' : Nodes) :
  Relaid nodesMap1 nodesMap2 →
  recalculateLayout nodesMap1 = Some nodesMap1' →
  ∃ nodesMap2',
    recalculateLayout nodesMap2 = Some nodesMap2'
    ∧ ∀ j n1, nodesMap1' !! j = Some n1 →
        ∃ n2, nodesMap2' !! j = Some n2
              ∧ same_links n1 n2
              ∧ (coords n1 = coords n2
                 ∨ (nodesMap1 !! j = Some n1 ∧ nodesMap2 !! j = Some n2)).
Proof.
  intros Hrel. unfold recalculateLayout. intros H.
  destruct (calculateTreeLayout _ _ nodesMap1 _ _) as [[m1' e]|] eqn:Hcall;
    [|done].
  simpl in H. injection H as <-.
  destruct (calculateTreeLayout_agree _ _ _ _ _ _ _ _ Hrel Hcall)
    as (m2' & Hcall2 & Hag & Hrel').
  exists m2'. rewrite <- (Relaid_size _ _ Hrel), Hcall2. split; [done|].
  intros j n1 Hn1.
  destruct (Relaid_lookup _ _ _ _ Hrel' Hn1) as (n2 & Hn2 & Hsame).
  exists n2. split; [done|]. split; [done|].
  destruct (Hag j) as [[Ha Hb]|Hc].
  - right. split; congruence.
  - left. rewrite Hn1, Hn2 in Hc. by apply (inj Some) in Hc.
Qed.

Lemma recalculateLayout_ignores_coordinates_witness :
  ∃ nodesMap1' nodesMap2',
    recalculateLayout reset = Some nodesMap1'
    ∧ recalculateLayout (alter (fun n => place n (7 # 1) 3) "root" reset)
      = Some nodesMap2'.
Proof.
  destruct (recalculateLayout reset) as [m1'|] eqn:H; [|by vm_compute in H].
  destruct (recalculateLayout_ignores_coordinates reset
              (alter (fun n => place n (7 # 1) 3) "root" reset) m1'
              (Relaid_place _ _ _ _) H) as (m2' & H2 & _).
  exists m1', m2'. split; [reflexivity|exact H2].
Defined.

(** * Tree store: further properties *)
Lemma addChildNode_unfold (nodes : Nodes) (parentId : string) (now : Z)
    (parent : VideoNode) :
  nodes !! parentId = Some parent →
  addChildNode nodes parentId now =
  match recalculateLayout (updatedNodes nodes parentId parent now) with
  | None => Throw RangeError
  | Some laidOut => SetNodes laidOut
  end.
Proof. intros H. unfold addChildNode. by rewrite H. Qed.

Lemma graft_rid p c t : rid (graft p c t) = rid t.
Proof. by destruct t. Qed.

Lemma graft_rids p c (ks : list rtree) :
  rid <$> (graft p c <$> ks) = rid <$> ks.
Proof.
  rewrite <- list_fmap_compose. apply list_fmap_ext.
  intros idx k Hk. apply graft_rid.
Qed.

Lemma graft_notin p c t : p ∉ ids t → graft p c t = t.
Proof.
  induction t as [i ks IH] using rtree_ind'. simpl.
  rewrite not_elem_of_cons, elem_of_flat_map. intros [Hne Hks].
  rewrite decide_False by done. f_equal.
  rewrite <- (list_fmap_id ks) at 2. apply list_fmap_ext.
  intros idx k Hk. rewrite Forall_forall in IH.
  apply list_elem_of_lookup_2 in Hk. apply IH; [done|]. naive_solver.
Qed.

Lemma graft_kids_notin p c (ks : list rtree) :
  p ∉ flat_map ids ks → graft p c <$> ks = ks.
Proof.
  rewrite elem_of_flat_map. intros Hp.
  rewrite <- (list_fmap_id ks) at 2. apply list_fmap_ext.
  intros idx k Hk. apply list_elem_of_lookup_2 in Hk.
  apply graft_notin. naive_solver.
Qed.

Lemma flat_map_app {A B} (f : A → list B) (l1 l2 : list A) :
  flat_map f (l1 ++ l2) = (flat_map f l1 ++ flat_map f l2)%list.
Proof. induction l1 as [|a l1 IH]; simpl; [done|]. by rewrite IH, app_assoc. Qed.

Lemma graft_ids p c t :
  NoDup (ids t) → p ∈ ids t → ids (graft p c t) ≡ₚ c :: ids t.
Proof.
  induction t as [i ks IH] using rtree_ind'. simpl.
  rewrite NoDup_cons. intros [Hi Hnd] Hp.
  destruct (decide (i = p)) as [->|Hne].
  - rewrite graft_kids_notin by done.
    rewrite flat_map_app. simpl.
    rewrite <- Permutation_cons_append. apply perm_swap.
  - apply elem_of_cons in Hp as [->|Hp]; [done|].
    rewrite perm_swap. apply perm_skip.
    clear Hi. induction IH as [|k ks Hk _ IHks]; simpl in *.
    { by apply elem_of_nil in Hp. }
    apply NoDup_app in Hnd as (Hnk & Hdisj & Hnks).
    apply elem_of_app in Hp as [Hp|Hp].
    + rewrite graft_kids_notin by eauto.
      rewrite (Hk Hnk Hp). done.
    + rewrite (graft_notin p c k) by (intros ?; by eapply Hdisj).
      rewrite (IHks Hnks Hp). symmetry. apply Permutation_middle.
Qed.

Lemma Shape_ext (m m' : Nodes) (t : rtree) :
  (∀ j, j ∈ ids t → m' !! j = m !! j) → Shape m t → Shape m' t.
Proof.
  induction t as [i ks IH] using rtree_ind'. intros Hext.
  inversion 1 as [i' n ks' Hn Hcs Hks]; subst.
  econstructor; [|exact Hcs|].
  - rewrite Hext; [done|]. simpl. left.
  - rewrite Forall_forall in IH, Hks. apply Forall_forall. intros k Hk.
    apply IH; [done| |by eauto]. intros j Hj. apply Hext. simpl. right.
    apply elem_of_flat_map. eauto.
Qed.

Lemma Parented_ext (m m' : Nodes) (t : rtree) :
  ∀ q, (∀ j, j ∈ ids t → m' !! j = m !! j) →
       Parented m q t → Parented m' q t.
Proof.
  induction t as [i ks IH] using rtree_ind'. intros q Hext.
  inversion 1 as [q' i' n ks' Hn Hid Hpar Hks]; subst.
  econstructor; [|done|done|].
  - rewrite Hext; [done|]. simpl. left.
  - rewrite Forall_forall in IH, Hks. apply Forall_forall. intros k Hk.
    apply IH; [done| |by eauto]. intros j Hj. apply Hext. simpl. right.
    apply elem_of_flat_map. eauto.
Qed.

Lemma Parented_relaid (m m' : Nodes) (t : rtree) :
  Relaid m m' → ∀ q, Parented m q t → Parented m' q t.
Proof.
  intros Hrel. induction t as [i ks IH] using rtree_ind'. intros q.
  inversion 1 as [q' i' n ks' Hn Hid Hpar Hks]; subst.
  destruct (Relaid_lookup _ _ _ _ Hrel Hn) as (n' & Hn' & Hsame).
  destruct Hsame as (Hid' & _ & _ & Hpar' & _).
  econstructor; [exact Hn'|congruence|congruence|].
  rewrite Forall_forall in IH, Hks. apply Forall_forall. eauto.
Qed.

Section graft_store.

Variables (m : Nodes) (p c : string) (parent newNode : VideoNode).
Hypothesis Hp : m !! p = Some parent.
Hypothesis Hpc : p ≠ c.
Hypothesis Hkids : children newNode = [].

Local Abbreviation m2 :=
  (<[c := newNode]>
     (<[p := with_children parent (children parent ++ [c])]> m)).

Lemma graft_store_other j : j ≠ p → j ≠ c → m2 !! j = m !! j.
Proof. intros ? ?. by rewrite !lookup_insert_ne. Qed.

Lemma graft_Shape t :
  Shape m t → NoDup (ids t) → c ∉ ids t → Shape m2 (graft p c t).
Proof.
  induction t as [i ks IH] using rtree_ind'.
  inversion 1 as [i' n ks' Hn Hcs Hks]; subst. simpl.
  rewrite NoDup_cons, not_elem_of_cons. intros [Hi Hnd] [Hci Hc].
  destruct (decide (i = p)) as [->|Hne].
  - rewrite graft_kids_notin by done.
    assert (n = parent) as -> by congruence.
    econstructor.
    + rewrite lookup_insert_ne, lookup_insert_eq by done. done.
    + simpl. by rewrite fmap_app, Hcs.
    + apply Forall_app. split.
      * rewrite Forall_forall in Hks. apply Forall_forall. intros k Hk.
        eapply Shape_ext; [|by eauto]. intros j Hj.
        apply graft_store_other; intros ->.
        -- apply Hi, elem_of_flat_map. eauto.
        -- apply Hc, elem_of_flat_map. eauto.
      * repeat constructor. econstructor; [|by rewrite Hkids|done].
        by rewrite lookup_insert_eq.
  - econstructor.
    + rewrite graft_store_other by done. exact Hn.
    + by rewrite graft_rids.
    + rewrite Forall_forall in IH, Hks. apply Forall_forall.
      intros k' Hk'. apply list_elem_of_fmap in Hk' as (k & -> & Hk).
      apply IH; [done|by eauto| |].
      * clear -Hnd Hk. induction ks as [|k0 ks IHks]; [by apply elem_of_nil in Hk|].
        simpl in Hnd. apply NoDup_app in Hnd as (? & _ & ?).
        apply elem_of_cons in Hk as [->|Hk]; eauto.
      * intros Hck. apply Hc, elem_of_flat_map. eauto.
Qed.

Hypothesis Hid : id newNode = c.
Hypothesis Hpar : parentId newNode = Some p.

Lemma graft_Parented t :
  ∀ q, Parented m q t → NoDup (ids t) → c ∉ ids t →
       Parented m2 q (graft p c t).
Proof.
  induction t as [i ks IH] using rtree_ind'. intros q.
  inversion 1 as [q' i' n ks' Hn Hidn Hparn Hks]. subst q' i' ks'. simpl.
  rewrite NoDup_cons, not_elem_of_cons. intros [Hi Hnd] [Hci Hc].
  destruct (decide (i = p)) as [Heq|Hne].
  - rewrite graft_kids_notin by (by rewrite <- Heq).
    assert (n = parent) as Hnp by congruence. rewrite Hnp in *.
    econstructor.
    + rewrite Heq, lookup_insert_ne, lookup_insert_eq by done. done.
    + exact Hidn.
    + exact Hparn.
    + apply Forall_app. split.
      * rewrite Forall_forall in Hks. apply Forall_forall. intros k Hk.
        eapply Parented_ext; [|by eauto]. intros j Hj.
        apply graft_store_other; intros Hjeq; rewrite Hjeq in Hj.
        -- apply Hi. rewrite Heq. apply elem_of_flat_map. eauto.
        -- apply Hc, elem_of_flat_map. eauto.
      * repeat constructor. econstructor; [|exact Hid|by rewrite Heq|done].
        by rewrite lookup_insert_eq.
  - econstructor.
    + rewrite graft_store_other by done. exact Hn.
    + exact Hidn.
    + exact Hparn.
    + rewrite Forall_forall in IH, Hks. apply Forall_forall.
      intros k' Hk'. apply list_elem_of_fmap in Hk' as (k & Hkeq & Hk).
      rewrite Hkeq. apply IH; [done|by eauto| |].
      * clear -Hnd Hk.
        induction ks as [|k0 ks IHks]; [by apply elem_of_nil in Hk|].
        simpl in Hnd. apply NoDup_app in Hnd as (? & _ & ?).
        apply elem_of_cons in Hk as [Hk|Hk]; [by rewrite Hk|eauto].
      * intros Hck. apply Hc, elem_of_flat_map. eauto.
Qed.

End graft_store.

Lemma Placed_Levelled_mutual (mid : Q → Q → Q) (m : Nodes) :
  (∀ t s lvl e, Placed mid m t s lvl e → Levelled m lvl t)
  ∧ (∀ ks s lvl mids e, PlacedKids mid m ks s lvl mids e →
     Forall (Levelled m lvl) ks).
Proof.
  apply Placed_mutual.
  - intros i n s lvl Hn _ _ Hl. econstructor; eauto.
  - intros i n k ks s lvl mids e Hn _ IH _ _ Hl. econstructor; eauto.
  - intros. constructor.
  - intros k ks s lvl e1 mids e _ IHk _ IHks. by constructor.
Qed.

(** Where a node of the tree hangs: it is the root of [t], or it is listed
    among the children of the node its [parentId] names, one level up. *)
Lemma tree_links (m : Nodes) (t : rtree) :
  ∀ q lvl, Shape m t → Parented m q t → Levelled m lvl t →
  ∀ j n, j ∈ ids t → m !! j = Some n →
    (j = rid t ∧ parentId n = q ∧ level n = lvl)
    ∨ (∃ p np, p ∈ ids t ∧ m !! p = Some np ∧ parentId n = Some p
               ∧ level n = level np + 1 ∧ j ∈ children np).
Proof.
  induction t as [i ks IH] using rtree_ind'. intros q lvl Hshape Hpar Hlev.
  inversion Hshape as [? ni ? Hni Hcs Hsks]. subst.
  inversion Hpar as [? ? ni' ? Hni' Hid Hq Hpks]. subst.
  inversion Hlev as [? ? ni'' ? Hni'' Hl Hlks]. subst.
  assert (ni' = ni) as -> by congruence.
  assert (ni'' = ni) as -> by congruence.
  intros j n Hj Hn. simpl in Hj. apply elem_of_cons in Hj as [->|Hj].
  - left. split; [done|]. split; congruence.
  - right. apply elem_of_flat_map in Hj as (k & Hk & Hj).
    rewrite Forall_forall in IH, Hsks, Hpks, Hlks.
    destruct (IH k Hk (Some (id ni)) (level ni + 1)
                (Hsks k Hk) (Hpks k Hk) (Hlks k Hk) j n Hj Hn)
      as [(-> & Hpn & Hln)|(p & np & Hp & Hnp & Hpn & Hln & Hjc)].
    + exists (id ni), ni. split; [simpl; left|]. split; [done|].
      split; [done|]. split; [done|].
      rewrite Hcs. apply list_elem_of_fmap. eauto.
    + exists p, np. split; [|done]. simpl. right.
      apply elem_of_flat_map. eauto.
Qed.

Lemma Shape_reachable (m : Nodes) (t : rtree) :
  Shape m t → Reachable m (rid t) → ∀ j, j ∈ ids t → Reachable m j.
Proof.
  induction t as [i ks IH] using rtree_ind'. intros Hshape Hreach j Hj.
  inversion Hshape as [? ni ? Hni Hcs Hsks]. subst.
  simpl in Hj. apply elem_of_cons in Hj as [->|Hj]; [done|].
  apply elem_of_flat_map in Hj as (k & Hk & Hj).
  rewrite Forall_forall in IH, Hsks. apply (IH k Hk); [by eauto| |done].
  eapply Reachable_child; [exact Hreach|exact Hni|].
  rewrite Hcs. apply list_elem_of_fmap. eauto.
Qed.

Lemma WellLinked_SingleTree (m : Nodes) (t : rtree) :
  WellLinked m t → SingleTree m.
Proof.
  intros (Htree & Hpar & Hlev).
  pose proof Htree as (Hroot & Hshape & Hnodup & Hall).
  assert (∃ nr, m !! "root" = Some nr ∧ parentId nr = None)
    as (nr & Hnr & Hnrp).
  { inversion Hpar as [? i n ks Hn _ Hq _]. subst. simpl in Hroot. subst.
    eauto. }
  split.
  - eauto.
  - intros j n Hn. split.
    + intros Hnone.
      destruct (tree_links m t None 0 Hshape Hpar Hlev j n) as
        [(-> & _)|(p & np & _ & _ & Hp & _)]; [by eauto|done|done|congruence].
    + intros ->. congruence.
  - intros j n p Hn Hp.
    destruct (tree_links m t None 0 Hshape Hpar Hlev j n) as
      [(_ & Hq & _)|(p' & np & _ & Hnp & Hp' & _)]; [by eauto|done|congruence|].
    assert (p' = p) as -> by congruence. eauto.
  - intros j Hj. eapply Shape_reachable; [exact Hshape| |by eauto].
    rewrite Hroot. constructor.
  - intros j n p np Hn Hp Hnp.
    destruct (tree_links m t None 0 Hshape Hpar Hlev j n) as
      [(_ & Hq & _)|(p' & np' & _ & Hnp' & Hp' & Hl & _)];
      [by eauto|done|congruence|].
    assert (p' = p) as -> by congruence. congruence.
  - eauto.
Qed.

(** [addChild] with an id that is not in the mapping yet keeps the
    tree. *)
Lemma addChildNode_fresh (m : Nodes) (t : rtree) (p : string)
    (parent : VideoNode) (now : Z) :
  IsTree m t → Parented m None t →
  m !! p = Some parent → m !! newIdAt now = None →
  ∃ m' e,
    addChildNode m p now = SetNodes m'
    ∧ Relaid (updatedNodes m p parent now) m'
    ∧ Placed childPosition m' (graft p (newIdAt now) t) (100 # 1) 0 e
    ∧ WellLinked m' (graft p (newIdAt now) t).
Proof.
  intros (Hroot & Hshape & Hnodup & Hall) Hpar Hp Hfresh.
  set (c := newIdAt now) in *.
  assert (p ≠ c) as Hpc by congruence.
  assert (c ∉ ids t) as Hc.
  { intros Hc. destruct (Shape_lookup _ _ Hshape _ Hc). congruence. }
  assert (p ∈ ids t) as Hpt by eauto.
  set (m2 := updatedNodes m p parent now).
  assert (Shape m2 (graft p c t)) as Hshape2.
  { apply graft_Shape; done. }
  assert (NoDup (ids (graft p c t))) as Hnodup2.
  { rewrite graft_ids by done. by apply NoDup_cons. }
  assert (Parented m2 None (graft p c t)) as Hpar2.
  { apply graft_Parented; done. }
  destruct (pass_from_root m2 _ Hshape2 Hnodup2) as (m' & e & Hcall & Hplaced).
  rewrite graft_rid, Hroot in Hcall.
  assert (Relaid m2 m') as Hrel by (by eapply calculateTreeLayout_relaid).
  exists m', e. split; [|split; [done|split; [done|]]].
  - rewrite (addChildNode_unfold _ _ _ _ Hp). fold m2.
    unfold recalculateLayout. by rewrite Hcall.
  - split; [|split].
    + split; [by rewrite graft_rid|]. split; [by eapply Shape_relaid|].
      split; [done|]. intros j Hj.
      rewrite graft_ids by done.
      destruct Hj as [n' Hn'].
      destruct (Relaid_lookup_inv _ _ _ _ Hrel Hn') as (n2 & Hn2 & _).
      destruct (decide (j = c)) as [->|Hjc]; [left|right].
      destruct (decide (j = p)) as [->|Hjp]; [done|].
      apply Hall. unfold m2, updatedNodes in Hn2. fold c in Hn2.
      rewrite !lookup_insert_ne in Hn2 by done. eauto.
    + by eapply Parented_relaid.
    + by eapply (proj1 (Placed_Levelled_mutual _ m')).
Qed.

Lemma reset_WellLinked : WellLinked reset (RNode "root" []).
Proof.
  split; [|split].
  - split; [done|]. split; [|split].
    + by econstructor.
    + compute_done.
    + intros j [n Hn]. unfold reset in Hn.
      apply lookup_singleton_Some in Hn as [<- _]. simpl. left.
  - by econstructor.
  - by econstructor.
Qed.

Lemma run_snoc (calls : list (string * Z)) (p : string) (now : Z)
    (nodes : Nodes) :
  run (calls ++ [(p, now)]) nodes
  = commit (run calls nodes) (addChildNode (run calls nodes) p now).
Proof. unfold run. by rewrite foldl_app. Qed.

Lemma updatedNodes_lookup_Some (m : Nodes) p parent now j n :
  m !! p = Some parent →
  updatedNodes m p parent now !! j = Some n →
  j = newIdAt now ∨ is_Some (m !! j).
Proof.
  intros Hp. unfold updatedNodes.
  destruct (decide (j = newIdAt now)) as [->|Hj]; [by left|].
  rewrite lookup_insert_ne by done.
  destruct (decide (j = p)) as [->|Hjp]; [by eauto|].
  rewrite lookup_insert_ne by done. eauto.
Qed.

Lemma updatedNodes_size (m : Nodes) p parent now :
  m !! p = Some parent → m !! newIdAt now = None →
  size (updatedNodes m p parent now) = S (size m).
Proof.
  intros Hp Hfresh. unfold updatedNodes.
  rewrite map_size_insert_None.
  - f_equal. apply map_size_insert_Some. eauto.
  - rewrite lookup_insert_ne by congruence. done.
Qed.

(** The invariant of a run whose calls saw the timestamps [used]. *)
Lemma run_distinct_ticks (calls : list (string * Z)) :
  NoDup calls.*2 →
  (∃ t, WellLinked (run calls reset) t)
  ∧ ∀ j, is_Some (run calls reset !! j) →
         j = "root" ∨ ∃ now, now ∈ calls.*2 ∧ j = newIdAt now.
Proof.
  induction calls as [|[p now] calls IH] using rev_ind.
  - intros _. split; [exists (RNode "root" []); apply reset_WellLinked|].
    intros j [n Hn]. change (run [] reset) with reset in Hn.
    unfold reset in Hn. apply lookup_singleton_Some in Hn as [<- _]. by left.
  - rewrite fmap_app. simpl. rewrite NoDup_app.
    intros (Hnd & Hnew & _). destruct (IH Hnd) as [[t Ht] Hkeys].
    rewrite run_snoc. set (m := run calls reset) in *.
    assert (∀ j, (j = "root" ∨ ∃ now', now' ∈ calls.*2 ∧ j = newIdAt now') →
                 j = "root" ∨ ∃ now', now' ∈ (calls.*2 ++ [now])%list
                                      ∧ j = newIdAt now') as Hwiden.
    { intros j [->|(now' & Hnow' & ->)]; [by left|right].
      exists now'. split; [|done]. apply elem_of_app. by left. }
    destruct (m !! p) as [parent|] eqn:Hp.
    + assert (m !! newIdAt now = None) as Hfresh.
      { destruct (m !! newIdAt now) as [n|] eqn:Hn; [|done]. exfalso.
        destruct (Hkeys (newIdAt now)) as [Hr|(now' & Hnow' & Heq)];
          [by eauto|by eapply newIdAt_not_root|].
        apply newIdAt_inj in Heq as <-. eapply Hnew; [done|]. left. }
      destruct Ht as (Htree & Hpar & _).
      destruct (addChildNode_fresh m t p parent now Htree Hpar Hp Hfresh)
        as (m' & e & Hout & Hrel & _ & Hwl).
      rewrite Hout. simpl. split; [by eauto|].
      intros j [n' Hn'].
      destruct (Relaid_lookup_inv _ _ _ _ Hrel Hn') as (n2 & Hn2 & _).
      destruct (updatedNodes_lookup_Some _ _ _ _ _ _ Hp Hn2) as [->|Hj].
      * right. exists now. split; [|done]. apply elem_of_app. right. left.
      * by apply Hwiden, Hkeys.
    + unfold addChildNode. rewrite Hp. simpl. split; [by eauto|]. intros j Hj. by apply Hwiden, Hkeys.
Qed.

(** X1: after [reset], any sequence of [addChild] calls whose [Date.now()]
    values are pairwise distinct leaves a single connected acyclic tree
    rooted at ["root"]: the root is the only node without parent, every
    other [parentId] names an existing node, every node is reached from the
    root through child ids, and every node's level is its parent's level
    plus 1.  Calls addressed to a missing node throw and change nothing. *)
Theorem run_distinct_ticks_single_tree (calls : list (string * Z)) :
  NoDup calls.*2 → SingleTree (run calls reset).
Proof.
  intros Hnd. destruct (run_distinct_ticks calls Hnd) as [[t Ht] _].
  by eapply WellLinked_SingleTree.
Qed.

Lemma run_distinct_ticks_single_tree_witness :
  SingleTree (run [("root", 5); ("node-5", 6); ("root", 7)] reset).
Proof. apply run_distinct_ticks_single_tree. compute_done. Defined.

(** X2: on a tree, [addChild] of an existing parent with an id that is not
    yet a key calls [setNodes] with a mapping that has exactly one more
    key, the new id; every node that was there keeps [id], [videoUrl],
    [color] and [parentId], and its [children], except that the parent's
    [children] end with the new id; the new node has no video, no
    children, the parent as [parentId] and the color
    [COLORS[size mod COLORS.length]] of the size before the call. *)
Theorem addChildNode_fresh_frame (nodes : Nodes) (t : rtree)
    (p : string) (parent : VideoNode) (now : Z) :
  IsTree nodes t → Parented nodes None t →
  nodes !! p = Some parent →
  nodes !! newIdAt now = None →
  ∃ nodes',
    addChildNode nodes p now = SetNodes nodes'
    ∧ size nodes' = S (size nodes)
    ∧ (∀ j, is_Some (nodes' !! j) ↔ j = newIdAt now ∨ is_Some (nodes !! j))
    ∧ (∀ j n, nodes !! j = Some n →
         ∃ n', nodes' !! j = Some n'
               ∧ id n' = id n ∧ videoUrl n' = videoUrl n
               ∧ color n' = color n
               ∧ parentId n' = parentId n
               ∧ children n' = if decide (j = p)
                               then (children n ++ [newIdAt now])%list
                               else children n)
    ∧ (∃ c, nodes' !! newIdAt now = Some c
            ∧ id c = newIdAt now ∧ videoUrl c = None
            ∧ color c = COLORS_at (size nodes mod length COLORS)
            ∧ parentId c = Some p
            ∧ children c = []).
Proof.
  intros Htree Hpar Hp Hfresh.
  destruct (addChildNode_fresh nodes t p parent now
              Htree Hpar Hp Hfresh) as (m' & e & Hout & Hrel & _ & _).
  exists m'. split; [done|]. split; [|split; [|split]].
  - rewrite <- (Relaid_size _ _ Hrel). by apply updatedNodes_size.
  - intros j. split.
    + intros [n' Hn'].
      destruct (Relaid_lookup_inv _ _ _ _ Hrel Hn') as (n2 & Hn2 & _).
      by eapply updatedNodes_lookup_Some.
    + intros Hj.
      assert (is_Some (updatedNodes nodes p parent now !! j))
        as [n2 Hn2].
      { unfold updatedNodes. destruct Hj as [->|Hj].
        - rewrite lookup_insert_eq. eauto.
        - destruct (decide (j = newIdAt now)) as [->|?];
            [rewrite lookup_insert_eq; eauto|].
          rewrite lookup_insert_ne by done.
          destruct (decide (j = p)) as [->|?];
            [rewrite lookup_insert_eq; eauto|].
          by rewrite lookup_insert_ne. }
      destruct (Relaid_lookup _ _ _ _ Hrel Hn2) as (n' & Hn' & _). eauto.
  - intros j n Hn.
    assert (j ≠ newIdAt now) as Hjc by congruence.
    assert (∃ n2, updatedNodes nodes p parent now !! j = Some n2
                  ∧ id n2 = id n ∧ videoUrl n2 = videoUrl n
                  ∧ color n2 = color n
                  ∧ parentId n2 = parentId n
                  ∧ children n2 = if decide (j = p)
                                  then (children n ++ [newIdAt now])%list
                                  else children n)
      as (n2 & Hn2 & Hid & Hurl & Hcol & Hpid & Hkids).
    { unfold updatedNodes. rewrite lookup_insert_ne by done.
      destruct (decide (j = p)) as [->|Hjp].
      - rewrite lookup_insert_eq. assert (n = parent) as -> by congruence.
        eexists. split; [done|]. by repeat split.
      - rewrite lookup_insert_ne by done. eexists. split; [done|].
        by repeat split. }
    destruct (Relaid_lookup _ _ _ _ Hrel Hn2)
      as (n' & Hn' & (? & ? & ? & ? & ?)).
    exists n'. split; [done|]. repeat split; congruence.
  - assert (∃ n2, updatedNodes nodes p parent now !! newIdAt now
                  = Some n2
                  ∧ id n2 = newIdAt now ∧ videoUrl n2 = None
                  ∧ color n2 = COLORS_at (size nodes mod length COLORS)
                  ∧ parentId n2 = Some p
                  ∧ children n2 = [])
      as (n2 & Hn2 & Hid & Hurl & Hcol & Hpid & Hkids).
    { unfold updatedNodes. rewrite lookup_insert_eq. eexists.
      split; [done|]. by repeat split. }
    destruct (Relaid_lookup _ _ _ _ Hrel Hn2)
      as (n' & Hn' & (? & ? & ? & ? & ?)).
    exists n'. split; [done|]. repeat split; congruence.
Qed.

Lemma addChildNode_fresh_frame_witness :
  ∃ nodes', addChildNode reset "root" 5 = SetNodes nodes'
            ∧ size nodes' = 2%nat.
Proof.
  destruct (addChildNode_fresh_frame reset (RNode "root" []) "root"
              root_node 5) as (nodes' & Hout & Hsize & _).
  - apply reset_WellLinked.
  - apply reset_WellLinked.
  - reflexivity.
  - reflexivity.
  - exists nodes'. split; [exact Hout|exact Hsize].
Defined.

(** X3: after [reset], two [addChild] calls on the root at two different
    [Date.now()] values give the root the two children in call order, at
    level 1, with colors [COLORS[1]] and [COLORS[2]], at x = 100 and
    x = 300 on the row y = 320, and put the root at their mean, x = 200,
    on the row y = 100. *)
Theorem two_children_distinct_ticks (t1 t2 : Z) :
  t1 ≠ t2 →
  ∃ r c1 c2,
    run [("root", t1); ("root", t2)] reset !! "root" = Some r
    ∧ run [("root", t1); ("root", t2)] reset !! newIdAt t1 = Some c1
    ∧ run [("root", t1); ("root", t2)] reset !! newIdAt t2 = Some c2
    ∧ children r = [newIdAt t1; newIdAt t2]
    ∧ level r = 0 ∧ level c1 = 1 ∧ level c2 = 1
    ∧ color c1 = COLORS_at 1 ∧ color c2 = COLORS_at 2
    ∧ (x c1 == 100 # 1)%Q ∧ (x c2 == 300 # 1)%Q
    ∧ (x r == (x c1 + x c2) / (2 # 1))%Q
    ∧ (x c1 < x c2)%Q
    ∧ (y r == 100 # 1)%Q ∧ (y c1 == 320 # 1)%Q ∧ (y c2 == 320 # 1)%Q.
Proof.
  intros Hne.
  assert (newIdAt t1 ≠ newIdAt t2) as Hids
    by (intros H; by apply newIdAt_inj in H).
  pose proof (newIdAt_not_root t1) as Hr1.
  pose proof (newIdAt_not_root t2) as Hr2.
  destruct reset_WellLinked as (Htree0 & Hpar0 & _).
  (* first call *)
  destruct (addChildNode_fresh reset _ "root" root_node t1 Htree0 Hpar0)
    as (m1 & e1 & Hout1 & Hrel1 & _ & (Htree1 & Hpar1 & _)).
  { reflexivity. }
  { unfold reset. by rewrite lookup_singleton_ne. }
  simpl graft in Htree1, Hpar1.
  (* second call *)
  assert (∃ r1, m1 !! "root" = Some r1 ∧ children r1 = [newIdAt t1])
    as (r1 & Hroot1 & Hkids1).
  { destruct Htree1 as (_ & Hshape & _).
    inversion Hshape as [? n ? Hn Hcs _]; subst. eauto. }
  assert (m1 !! newIdAt t2 = None) as Hfresh2.
  { destruct (m1 !! newIdAt t2) eqn:Hn; [|done]. exfalso.
    destruct Htree1 as (_ & _ & _ & Hall).
    specialize (Hall (newIdAt t2) ltac:(eauto)).
    cbn [ids flat_map app] in Hall.
    apply elem_of_cons in Hall as [Hall|Hall]; [done|].
    apply list_elem_of_singleton in Hall. congruence. }
  destruct (addChildNode_fresh m1 _ "root" r1 t2 Htree1 Hpar1 Hroot1 Hfresh2)
    as (m2 & e2 & Hout2 & Hrel2 & Hplaced & _).
  assert (run [("root", t1); ("root", t2)] reset = m2) as ->.
  { unfold run. simpl. rewrite Hout1. simpl. by rewrite Hout2. }
  simpl graft in Hplaced.
  (* read the coordinates off the placement *)
  inversion Hplaced as [|? r ? ? ? ? mids ? Hr Hkids Hxr Hyr Hlr]; subst.
  inversion Hkids as [|? ? ? ? ea mids' ? Hk1 Hrest]; subst.
  inversion Hk1 as [? c1 ? ? Hc1 Hx1 Hy1 Hl1|]; subst.
  inversion Hrest as [|? ? ? ? eb mids'' ? Hk2 Hnil]; subst.
  inversion Hk2 as [? c2 ? ? Hc2 Hx2 Hy2 Hl2|]; subst.
  inversion Hnil; subst.
  exists r, c1, c2. split; [done|]. split; [done|]. split; [done|].
  (* the links and colors come from the mapping before the pass *)
  destruct (Relaid_lookup_inv _ _ _ _ Hrel2 Hr) as (ru & Hru & Hsr).
  destruct (Relaid_lookup_inv _ _ _ _ Hrel2 Hc1) as (c1u & Hc1u & Hs1).
  destruct (Relaid_lookup_inv _ _ _ _ Hrel2 Hc2) as (c2u & Hc2u & Hs2).
  unfold updatedNodes in Hru, Hc1u, Hc2u.
  rewrite lookup_insert_ne, lookup_insert_eq in Hru by done.
  rewrite lookup_insert_ne, lookup_insert_ne in Hc1u by done.
  rewrite lookup_insert_eq in Hc2u.
  injection Hru as <-. injection Hc2u as <-.
  destruct (Relaid_lookup_inv _ _ _ _ Hrel1 Hc1u) as (c1v & Hc1v & Hs1v).
  unfold updatedNodes in Hc1v. rewrite lookup_insert_eq in Hc1v.
  injection Hc1v as <-.
  assert (size m1 = 2%nat) as Hsize1.
  { rewrite <- (Relaid_size _ _ Hrel1).
    rewrite updatedNodes_size; [done|done|].
    unfold reset. by rewrite lookup_singleton_ne. }
  destruct Hsr as (_ & _ & _ & _ & Hkr).
  destruct Hs1 as (_ & _ & Hcol1 & _).
  destruct Hs1v as (_ & _ & Hcol1v & _).
  destruct Hs2 as (_ & _ & Hcol2 & _).
  simpl in Hkr, Hcol1v, Hcol2. rewrite Hsize1 in Hcol2.
  split; [by rewrite <- Hkr, Hkids1|].
  split; [done|]. split; [done|]. split; [done|].
  split; [by rewrite <- Hcol1, <- Hcol1v|]. split; [by rewrite <- Hcol2|].
  rewrite Hxr, Hx1, Hx2, Hyr, Hy1, Hy2.
  unfold mean, childPosition, NODE_SPACING, LEVEL_HEIGHT. simpl.
  repeat split; reflexivity.
Qed.

Lemma two_children_distinct_ticks_witness :
  ∃ r c1 c2,
    run [("root", 5); ("root", 6)] reset !! "root" = Some r
    ∧ run [("root", 5); ("root", 6)] reset !! newIdAt 5 = Some c1
    ∧ run [("root", 5); ("root", 6)] reset !! newIdAt 6 = Some c2
    ∧ (x r == (x c1 + x c2) / (2 # 1))%Q ∧ (x c1 < x c2)%Q.
Proof.
  destruct (two_children_distinct_ticks 5 6) as
    (r & c1 & c2 & Hr & Hc1 & Hc2 & _ & _ & _ & _ & _ & _ & _ & _ & Hmean
       & Hlt & _); [lia|].
  exists r, c1, c2. repeat split; assumption.
Defined.

(** * The states reached by handlers addressed to nodes *)

Lemma Relaid_dom (m m' : Nodes) : Relaid m m' → dom m' = dom m.
Proof.
  intros H. apply set_eq. intros j. rewrite !elem_of_dom. specialize (H j).
  inversion H; split; intros [? ?]; by eauto || congruence.
Qed.

Lemma Ranked_relaid rank (m m' : Nodes) :
  Relaid m m' → Ranked rank m → Ranked rank m'.
Proof.
  intros Hrel Hr p n' c Hn' Hc.
  destruct (Relaid_lookup_inv _ _ _ _ Hrel Hn') as (n & Hn & Hsame).
  destruct Hsame as (_ & _ & _ & _ & Hkids). rewrite <- Hkids in Hc. eauto.
Qed.

Lemma Closed_relaid (m m' : Nodes) : Relaid m m' → Closed m → Closed m'.
Proof.
  intros Hrel Hcl p n' c Hn' Hc.
  destruct (Relaid_lookup_inv _ _ _ _ Hrel Hn') as (n & Hn & Hsame).
  destruct Hsame as (_ & _ & _ & _ & Hkids). rewrite <- Hkids in Hc.
  destruct (Hcl _ _ _ Hn Hc) as [nc Hnc].
  destruct (Relaid_lookup _ _ _ _ Hrel Hnc) as (? & ? & _). eauto.
Qed.

Section termination.

Variable rank : string → nat.
Variable D : gset string.

Local Abbreviation above := (above rank D).

Lemma above_child (i c : string) :
  c ∈ D → (rank i < rank c)%nat → (size (above c) < size (above i))%nat.
Proof.
  intros Hc Hlt. apply subset_size. split.
  - intros j. unfold above. rewrite !elem_of_filter. intros [? ?].
    split; [lia|done].
  - intros Hsub. assert (c ∈ above c) as Hcc.
    { apply Hsub. unfold above. rewrite elem_of_filter. done. }
    unfold above in Hcc. rewrite elem_of_filter in Hcc. lia.
Qed.

Lemma layoutChildren_returns
    (layout : string → Nodes → Q → option (Nodes * Q)) (cs : list string) :
  (∀ c m cur, c ∈ cs → dom m = D → Ranked rank m → Closed m →
              ∃ m' e, layout c m cur = Some (m', e) ∧ Relaid m m') →
  ∀ m cur acc, dom m = D → Ranked rank m → Closed m →
    ∃ r, layoutChildren layout cs m cur acc = Some r.
Proof.
  induction cs as [|c cs IH]; intros Hlayout m cur acc Hdom Hr Hcl.
  - simpl. eauto.
  - simpl. destruct (Hlayout c m cur) as (m1 & e1 & -> & Hrel);
      [left|done..|].
    apply IH.
    + intros c' m' cur' Hc'. apply Hlayout. by right.
    + by rewrite (Relaid_dom _ _ Hrel).
    + by eapply Ranked_relaid.
    + by eapply Closed_relaid.
Qed.

Lemma calculateTreeLayout_returns (fuel : nat) :
  ∀ i m s lvl,
    dom m = D → Ranked rank m → Closed m → i ∈ D →
    (size (above i) < fuel)%nat →
    ∃ r, calculateTreeLayout fuel i m s lvl = Some r.
Proof.
  induction fuel as [|fuel IH]; intros i m s lvl Hdom Hr Hcl Hi Hfuel; [lia|].
  rewrite calculateTreeLayout_unfold.
  destruct (m !! i) as [n|] eqn:Hn; [|by eauto].
  destruct (children n) as [|c cs] eqn:Hcs; [by eauto|].
  destruct (layoutChildren_returns
              (fun c m' cur => calculateTreeLayout fuel c m' cur (lvl + 1))
              (c :: cs)) with (m := m) (cur := s) (acc := @nil Q)
    as [[[m1 e1] mids] ->]; [|done..|by eauto].
  intros c' m' cur Hc' Hdom' Hr' Hcl'.
  assert (c' ∈ D ∧ (rank i < rank c')%nat) as [HcD Hlt].
  { rewrite <- Hcs in Hc'. split; [|by eauto].
    rewrite <- Hdom. apply elem_of_dom. eauto. }
  destruct (IH c' m' cur (lvl + 1)) as [[m2 e2] Hcall]; [done..| |].
  { pose proof (above_child i c' HcD Hlt). lia. }
  exists m2, e2. split; [done|]. by eapply calculateTreeLayout_relaid.
Qed.

End termination.

Lemma recalculateLayout_returns rank (m : Nodes) :
  Ranked rank m → Closed m → ∃ m', recalculateLayout m = Some m'.
Proof.
  intros Hr Hcl. unfold recalculateLayout.
  destruct (m !! "root") as [n|] eqn:Hroot.
  - destruct (calculateTreeLayout_returns rank (dom m) (S (size m))
                "root" m (100 # 1)%Q 0) as [[m' e] ->]; [done..| | |by eauto].
    + apply elem_of_dom. eauto.
    + rewrite <- size_dom. apply Nat.lt_succ_r, subseteq_size.
      intros j. unfold above. rewrite elem_of_filter. tauto.
  - rewrite calculateTreeLayout_unfold, Hroot. simpl. eauto.
Qed.

Lemma COLORS_at_mod (k : nat) : COLORS_at (k mod length COLORS) ∈ COLORS.
Proof.
  unfold COLORS_at.
  destruct (COLORS !! (k mod length COLORS)%nat) as [s|] eqn:Hs.
  - simpl. by eapply list_elem_of_lookup_2.
  - apply lookup_ge_None in Hs.
    pose proof (Nat.mod_upper_bound k (length COLORS)) as Hlt.
    simpl in *. lia.
Qed.

Lemma indexOf_elem (l : list string) (s : string) :
  s ∈ l → 0 ≤ indexOf l s < Z.of_nat (length l).
Proof.
  induction l as [|a l IH]; [by intros ?%elem_of_nil|].
  intros Hs. simpl indexOf. destruct (decide (a = s)) as [->|Hne].
  - simpl length. lia.
  - apply elem_of_cons in Hs as [->|Hs]; [done|].
    specialize (IH Hs). simpl length.
    destruct (decide (indexOf l s = -1)); lia.
Qed.

Lemma reset_Sound : Sound reset.
Proof.
  unfold reset. split.
  - by eexists.
  - intros p n c Hn Hc. apply lookup_singleton_Some in Hn as [_ <-].
    by apply elem_of_nil in Hc.
  - exists (fun _ => 0%nat). intros p n c Hn Hc.
    apply lookup_singleton_Some in Hn as [_ <-]. by apply elem_of_nil in Hc.
  - intros j n Hn. by apply lookup_singleton_Some in Hn as [<- <-].
  - intros j n Hn. apply lookup_singleton_Some in Hn as [_ <-].
    apply (COLORS_at_mod 0).
Qed.

(** Soundness reads the keys and, of each node, [id], [color] and
    [children]. *)
Lemma Sound_similar (m m' : Nodes) :
  (∀ j, option_Forall2
          (fun n n' => id n = id n' ∧ color n = color n'
                       ∧ children n = children n')
          (m !! j) (m' !! j)) →
  Sound m → Sound m'.
Proof.
  intros Hsim [Hroot Hcl [rank Hr] Hids Hcol].
  assert (∀ j n', m' !! j = Some n' →
            ∃ n, m !! j = Some n ∧ id n = id n' ∧ color n = color n'
                 ∧ children n = children n') as Hback.
  { intros j n' Hn'. specialize (Hsim j). rewrite Hn' in Hsim.
    inversion Hsim; subst. eauto. }
  assert (∀ j, is_Some (m !! j) → is_Some (m' !! j)) as Hfwd.
  { intros j [n Hn]. specialize (Hsim j). rewrite Hn in Hsim.
    inversion Hsim; subst. eauto. }
  split.
  - by apply Hfwd.
  - intros p n' c Hn' Hc.
    destruct (Hback _ _ Hn') as (n & Hn & _ & _ & Hkids).
    rewrite <- Hkids in Hc. apply Hfwd. eauto.
  - exists rank. intros p n' c Hn' Hc.
    destruct (Hback _ _ Hn') as (n & Hn & _ & _ & Hkids).
    rewrite <- Hkids in Hc. eauto.
  - intros j n' Hn'. destruct (Hback _ _ Hn') as (n & Hn & Hid & _).
    rewrite <- Hid. eauto.
  - intros j n' Hn'. destruct (Hback _ _ Hn') as (n & Hn & _ & Hc & _).
    rewrite <- Hc. eauto.
Qed.

Lemma Sound_relaid (m m' : Nodes) : Relaid m m' → Sound m → Sound m'.
Proof.
  intros Hrel. apply Sound_similar. intros j. specialize (Hrel j).
  inversion Hrel as [n n' (? & _ & ? & _ & ?)|]; by constructor.
Qed.

Lemma Sound_attach (m : Nodes) (i : string) (n : VideoNode) (url : string) :
  m !! i = Some n → Sound m → Sound (<[i := with_videoUrl n url]> m).
Proof.
  intros Hn. apply Sound_similar. intros j.
  destruct (decide (i = j)) as [->|Hne].
  - rewrite lookup_insert_eq, Hn. by constructor.
  - rewrite lookup_insert_ne by done. by destruct (m !! j); constructor.
Qed.

(** What [updatedNodes] holds under a key other than the new id. *)
Lemma updatedNodes_old (m : Nodes) p parent now q n :
  m !! p = Some parent →
  q ≠ newIdAt now →
  updatedNodes m p parent now !! q = Some n →
  ∃ n0, m !! q = Some n0
        ∧ id n = id n0 ∧ color n = color n0
        ∧ ∀ c, c ∈ children n → c = newIdAt now ∨ c ∈ children n0.
Proof.
  intros Hp Hq. unfold updatedNodes. rewrite lookup_insert_ne by done.
  destruct (decide (q = p)) as [->|Hqp].
  - rewrite lookup_insert_eq. intros [= <-]. exists parent.
    split; [done|]. split; [done|]. split; [done|].
    intros c. simpl. rewrite elem_of_app, list_elem_of_singleton. tauto.
  - rewrite lookup_insert_ne by done. intros Hn. exists n.
    split; [done|]. split; [done|]. split; [done|]. by right.
Qed.

Lemma updatedNodes_keeps (m : Nodes) p parent now j :
  is_Some (m !! j) → is_Some (updatedNodes m p parent now !! j).
Proof.
  intros Hj. unfold updatedNodes.
  destruct (decide (j = newIdAt now)) as [->|?];
    [rewrite lookup_insert_eq; eauto|].
  rewrite lookup_insert_ne by done.
  destruct (decide (j = p)) as [->|?]; [rewrite lookup_insert_eq; eauto|].
  by rewrite lookup_insert_ne.
Qed.

Lemma Sound_updated (m : Nodes) p parent now :
  m !! p = Some parent → Sound m → Sound (updatedNodes m p parent now).
Proof.
  intros Hp [Hroot Hcl [rank Hr] Hids Hcol]. split.
  - by apply updatedNodes_keeps.
  - intros q n c Hn Hc.
    destruct (decide (q = newIdAt now)) as [->|Hq].
    { unfold updatedNodes in Hn. rewrite lookup_insert_eq in Hn.
      injection Hn as <-. by apply elem_of_nil in Hc. }
    destruct (updatedNodes_old _ _ _ _ _ _ Hp Hq Hn)
      as (n0 & Hn0 & _ & _ & Hkids).
    destruct (Hkids c Hc) as [->|Hc0].
    + unfold updatedNodes. rewrite lookup_insert_eq. eauto.
    + apply updatedNodes_keeps. eauto.
  - set (top := S (max_list (rank <$> elements (dom m)))).
    assert (∀ j, is_Some (m !! j) → (rank j < top)%nat) as Htop.
    { intros j Hj. unfold top. apply Nat.lt_succ_r, max_list_elem_of_le.
      apply list_elem_of_fmap. exists j. split; [done|].
      by apply elem_of_elements, elem_of_dom. }
    exists (fun j => if decide (j = newIdAt now) then top else rank j).
    intros q n c Hn Hc.
    destruct (decide (q = newIdAt now)) as [->|Hq].
    { unfold updatedNodes in Hn. rewrite lookup_insert_eq in Hn.
      injection Hn as <-. by apply elem_of_nil in Hc. }
    destruct (updatedNodes_old _ _ _ _ _ _ Hp Hq Hn)
      as (n0 & Hn0 & _ & _ & Hkids).
    destruct (decide (c = newIdAt now)) as [->|Hc'].
    + apply Htop. eauto.
    + destruct (Hkids c Hc) as [?|Hc0]; [done|]. eauto.
  - intros j n Hn.
    destruct (decide (j = newIdAt now)) as [->|Hj].
    { unfold updatedNodes in Hn. rewrite lookup_insert_eq in Hn.
      by injection Hn as <-. }
    destruct (updatedNodes_old _ _ _ _ _ _ Hp Hj Hn)
      as (n0 & Hn0 & Hid & _).
    rewrite Hid. eauto.
  - intros j n Hn.
    destruct (decide (j = newIdAt now)) as [->|Hj].
    { unfold updatedNodes in Hn. rewrite lookup_insert_eq in Hn.
      injection Hn as <-. apply COLORS_at_mod. }
    destruct (updatedNodes_old _ _ _ _ _ _ Hp Hj Hn)
      as (n0 & Hn0 & _ & Hc & _).
    rewrite Hc. eauto.
Qed.

(** [addChild] on a sound mapping: a missing parent throws, an existing
    one gets its child and the pass returns. *)
Lemma addChildNode_sound (m : Nodes) (p : string) (now : Z) :
  Sound m →
  (m !! p = None ∧ addChildNode m p now = Throw TypeError)
  ∨ (∃ parent m' e,
       m !! p = Some parent
       ∧ calculateTreeLayout (S (size (updatedNodes m p parent now))) "root"
           (updatedNodes m p parent now) (100 # 1) 0 = Some (m', e)
       ∧ addChildNode m p now = SetNodes m'
       ∧ Sound m').
Proof.
  intros Hsound. destruct (m !! p) as [parent|] eqn:Hp.
  - right. pose proof (Sound_updated m p parent now Hp Hsound) as Hu.
    destruct (sound_acyclic _ Hu) as [rank Hr].
    destruct (recalculateLayout_returns rank _ Hr (sound_closed _ Hu))
      as [m' Hm'].
    pose proof Hm' as Hcall. unfold recalculateLayout in Hcall.
    destruct (calculateTreeLayout _ _ _ _ _) as [[m2 e]|] eqn:Hpass;
      [|done].
    simpl in Hcall. injection Hcall as ->.
    exists parent, m', e. split; [done|]. split; [done|]. split.
    + rewrite (addChildNode_unfold _ _ _ _ Hp). by rewrite Hm'.
    + eapply Sound_relaid; [|exact Hu].
      by eapply calculateTreeLayout_relaid.
  - left. split; [done|]. unfold addChildNode. by rewrite Hp.
Qed.

Lemma addChildNode_typed (m : Nodes) (p : string) (now : Z) :
  addChildNode m p now ≠ Untyped ∧ addChildNode m p now ≠ NoUpdate.
Proof.
  unfold addChildNode. destruct (m !! p); [|done].
  by destruct (recalculateLayout _).
Qed.

Lemma Reached_Sound (m : Nodes) : ReachedOnKeys m → Sound m.
Proof.
  induction 1 as [|m p now m' _ IH Hstep|m i file url m' _ IH Hkey Hstep];
    [apply reset_Sound| |].
  - destruct (addChildNode_sound m p now IH)
      as [[_ Hthrow]|(parent & m2 & e & _ & _ & Hset & Hs)]; [congruence|].
    rewrite Hset in Hstep. by injection Hstep as <-.
  - unfold handleFileSelect in Hstep.
    destruct file as [f|]; [|done].
    destruct (String.prefix "video/" (type f)); [|done].
    destruct (m !! i) as [n|] eqn:Hn; [|done].
    injection Hstep as <-. by apply Sound_attach.
Qed.

Lemma two_children_reached : ReachedOnKeys two_children.
Proof.
  apply (Reached_addChild one_child "root" 6).
  - apply (Reached_addChild reset "root" 5); [constructor|]. by vm_compute.
  - by vm_compute.
Qed.

(** X9: in every state reached by [addChild] calls, whatever [Date.now()]
    returned and so also after ids were reused, and by file selections for
    existing nodes, [addChild] of an id that is no key throws the
    TypeError, and [addChild] of a key starts a layout pass that returns
    within a recursion depth of the number of nodes plus one (the fuel
    given here) and calls [setNodes].  The child links never form a cycle,
    so the recursion is bounded; a call stack shorter than that depth is
    not modelled. *)
Theorem addChildNode_pass_bounded (nodes : Nodes) (p : string) (now : Z) :
  ReachedOnKeys nodes →
  match nodes !! p with
  | None => addChildNode nodes p now = Throw TypeError
  | Some parent =>
      ∃ nodes' e,
        calculateTreeLayout (S (size (updatedNodes nodes p parent now)))
          "root" (updatedNodes nodes p parent now) (100 # 1) 0
        = Some (nodes', e)
        ∧ addChildNode nodes p now = SetNodes nodes'
        ∧ ReachedOnKeys nodes'
  end.
Proof.
  intros Hreached.
  destruct (addChildNode_sound nodes p now (Reached_Sound _ Hreached))
    as [[Hp Hthrow]|(parent & m' & e & Hp & Hpass & Hset & _)].
  - by rewrite Hp.
  - rewrite Hp. exists m', e. split; [done|]. split; [done|].
    by apply (Reached_addChild nodes p now).
Qed.

Lemma addChildNode_pass_bounded_witness :
  ∃ nodes', addChildNode same_tick "root" 5 = SetNodes nodes'.
Proof.
  assert (ReachedOnKeys same_tick) as Hreached.
  { apply (Reached_addChild one_child "root" 5).
    - apply (Reached_addChild reset "root" 5); [constructor|]. by vm_compute.
    - by vm_compute. }
  pose proof (addChildNode_pass_bounded same_tick "root" 5 Hreached) as H.
  destruct (same_tick !! "root") as [parent|] eqn:Hp.
  - destruct H as (nodes' & _ & _ & Hset & _). exists nodes'. exact Hset.
  - clear H Hreached. vm_compute in Hp. discriminate Hp.
Defined.

(** X10: in every state reached by [addChild] calls, whatever [Date.now()]
    returned, and by file selections for existing nodes, the root is
    present, every child id is a key of the mapping, the child links form
    no cycle (they lead strictly upwards in some ranking), and every node
    is stored under its own [id] with a color of the palette. *)
Theorem reached_nodes_sound (nodes : Nodes) :
  ReachedOnKeys nodes →
  is_Some (nodes !! "root")
  ∧ (∀ p n c, nodes !! p = Some n → c ∈ children n → is_Some (nodes !! c))
  ∧ (∃ rank : string → nat,
       ∀ p n c, nodes !! p = Some n → c ∈ children n →
                (rank p < rank c)%nat)
  ∧ (∀ j n, nodes !! j = Some n → id n = j ∧ color n ∈ COLORS).
Proof.
  intros H. destruct (Reached_Sound _ H) as [Hroot Hcl Hr Hids Hcol].
  split; [done|]. split; [done|]. split; [done|].
  intros j n Hn. split; eauto.
Qed.

Lemma reached_nodes_sound_witness : is_Some (same_tick_below !! "root").
Proof.
  assert (ReachedOnKeys same_tick_below) as H.
  { apply (Reached_addChild one_child "node-5" 5).
    - apply (Reached_addChild reset "root" 5); [constructor|]. by vm_compute.
    - by vm_compute. }
  exact (proj1 (reached_nodes_sound _ H)).
Defined.

(** X11: in every state reached by [addChild] calls, whatever [Date.now()]
    returned, and by file selections for existing nodes, rendering the
    branches of a node does not throw (no child is missing), yields one
    branch per child id, and gives each branch a gradient index within
    0 .. COLORS.length - 1, so that its stroke names a gradient that is
    defined. *)
Theorem branchesOf_never_throws (nodes : Nodes) (j : string)
    (node : VideoNode) :
  ReachedOnKeys nodes → nodes !! j = Some node →
  ∃ branches,
    branchesOf nodes node = Some branches
    ∧ length branches = length (children node)
    ∧ Forall (fun b => 0 ≤ colorIndex b < Z.of_nat (length COLORS)) branches.
Proof.
  intros Hreached Hnode.
  destruct (Reached_Sound _ Hreached) as [_ Hcl _ _ Hcol].
  assert (∀ c, c ∈ children node → is_Some (nodes !! c)) as Hkids
    by (intros c; by apply (Hcl j)).
  unfold branchesOf. generalize (id node). intros i0.
  set (f := fun childId : string =>
              match nodes !! childId with
              | Some child =>
                  Some {| key := i0 +:+ "-" +:+ childId;
                          d := calculateBranchPath node child;
                          colorIndex := indexOf COLORS (color child) |}
              | None => None
              end).
  assert (∃ bs, Forall2 (fun c b => f c = Some b) (children node) bs
                ∧ Forall (fun b => 0 ≤ colorIndex b
                                   < Z.of_nat (length COLORS)) bs)
    as (bs & Hbs & Hall).
  { induction (children node) as [|c cs IH].
    - exists []. split; constructor.
    - destruct (Hkids c) as [child Hchild]; [left|].
      destruct IH as (bs & Hbs & Hall).
      { intros c' Hc'. apply Hkids. by right. }
      eexists (_ :: bs). split.
      + constructor; [|exact Hbs]. unfold f. rewrite Hchild. reflexivity.
      + constructor; [|done]. cbn [colorIndex]. apply indexOf_elem. eauto. }
  exists bs. split; [by apply mapM_Some_2|]. split; [|done].
  symmetry. by eapply Forall2_length.
Qed.

Lemma branchesOf_never_throws_witness :
  ∃ parent branches,
    two_children !! "root" = Some parent
    ∧ branchesOf two_children parent = Some branches
    ∧ length branches = 2%nat.
Proof.
  destruct (two_children !! "root") as [parent|] eqn:Hp;
    [|by vm_compute in Hp].
  destruct (branchesOf_never_throws two_children "root" parent
              two_children_reached Hp) as (bs & Hbs & Hlen & _).
  exists parent, bs. split; [reflexivity|]. split; [exact Hbs|].
  rewrite Hlen. vm_compute in Hp. by injection Hp as <-.
Defined.

(** * Layout and connector together *)

Lemma Placed_root mid (m : Nodes) t s lvl e :
  Placed mid m t s lvl e →
  ∃ n, m !! rid t = Some n ∧ level n = lvl
       ∧ (y n == (100 # 1) + inject_Z lvl * LEVEL_HEIGHT)%Q.
Proof. inversion 1; subst; eauto. Qed.

(** After a pass over a tree, every node of the mapping is the root of a
    placed subtree whose children are the node's child ids. *)
Lemma laid_out_family (m m' : Nodes) (t : rtree) (p : string)
    (np : VideoNode) :
  IsTree m t → recalculateLayout m = Some m' → m' !! p = Some np →
  ∃ ks s lvl e,
    children np = rid <$> ks
    ∧ Forall (Shape m') ks
    ∧ Placed childPosition m' (RNode p ks) s lvl e.
Proof.
  intros (Hroot & Hshape & Hnodup & Hall) Hlayout Hp.
  destruct (pass_from_root _ _ Hshape Hnodup) as (m2 & e & Hcall & Hplaced).
  assert (Relaid m m2) as Hrel by (by eapply calculateTreeLayout_relaid).
  unfold recalculateLayout in Hlayout. rewrite <- Hroot, Hcall in Hlayout.
  simpl in Hlayout. injection Hlayout as ->.
  destruct (Relaid_lookup_inv _ _ _ _ Hrel Hp) as (np0 & Hp0 & _).
  destruct (ids_subtrees t p) as (tp & Htp & Hrid); [by eauto|].
  destruct tp as [p' ks]. simpl in Hrid. subst p'.
  assert (Shape m' (RNode p ks)) as Hshape'.
  { eapply Shape_subtree; [|exact Htp]. by eapply Shape_relaid. }
  inversion Hshape' as [? np' ? Hp' Hcs Hks]; subst.
  assert (np' = np) as -> by congruence.
  destruct (Placed_subtree _ _ _ _ _ _ _ Hplaced Htp) as (s' & lvl' & e' & Hpp).
  eauto 10.
Qed.

Lemma laid_out_edge (m m' : Nodes) (t : rtree) (p c : string)
    (np nc : VideoNode) :
  IsTree m t → recalculateLayout m = Some m' →
  m' !! p = Some np → c ∈ children np → m' !! c = Some nc →
  level nc = level np + 1 ∧ (y nc == y np + LEVEL_HEIGHT)%Q.
Proof.
  intros Htree Hlayout Hp Hc Hnc.
  destruct (laid_out_family _ _ _ _ _ Htree Hlayout Hp)
    as (ks & s & lvl & e & Hcs & _ & Hplaced).
  rewrite Hcs in Hc. apply list_elem_of_fmap in Hc as (k & -> & Hk).
  destruct (Placed_root _ _ _ _ _ _ Hplaced) as (np' & Hp' & Hl & Hy).
  simpl in Hp'. assert (np' = np) as -> by congruence.
  destruct (Placed_kids _ _ _ _ _ _ _ Hplaced) as [mids [Hkids | ->]];
    [|by apply elem_of_nil in Hk].
  destruct (PlacedKids_elem _ _ _ _ _ _ _ _ Hkids Hk) as (s' & e' & Hpk).
  destruct (Placed_root _ _ _ _ _ _ Hpk) as (nc' & Hc' & Hlc & Hyc).
  assert (nc' = nc) as -> by congruence.
  split; [lia|]. rewrite Hy, Hyc, inject_Z_plus.
  unfold LEVEL_HEIGHT. ring.
Qed.

(** X12: after a layout pass over a tree, every child listed by a node is
    one level and LEVEL_HEIGHT below it; its connector therefore runs
    from startY to startY + 60, with the midpoint at startY + 30 and the
    control points at startY + 18 and endY - 18. *)
Theorem laid_out_branch_descends
    (nodesMap nodesMap' : Nodes) (t : rtree) (p c : string)
    (parent child : VideoNode) :
  IsTree nodesMap t → recalculateLayout nodesMap = Some nodesMap' →
  nodesMap' !! p = Some parent → c ∈ children parent →
  nodesMap' !! c = Some child →
  level child = level parent + 1
  ∧ (y child == y parent + LEVEL_HEIGHT)%Q
  ∧ (endY child == startY parent + (60 # 1))%Q
  ∧ (midY parent child == startY parent + (30 # 1))%Q
  ∧ (controlY1 parent child == startY parent + (18 # 1))%Q
  ∧ (controlY2 parent child == endY child - (18 # 1))%Q.
Proof.
  intros Htree Hlayout Hp Hc Hnc.
  destruct (laid_out_edge _ _ _ _ _ _ _ Htree Hlayout Hp Hc Hnc) as [Hl Hy].
  split; [done|]. split; [done|].
  assert (endY child == startY parent + (60 # 1))%Q as Hend.
  { unfold endY, startY. rewrite Hy. unfold LEVEL_HEIGHT. ring. }
  assert (midY parent child == startY parent + (30 # 1))%Q as Hmid.
  { unfold midY. rewrite Hend. field. }
  split; [done|]. split; [done|]. split.
  - unfold controlY1. rewrite Hmid. ring.
  - unfold controlY2. rewrite Hmid, Hend. ring.
Qed.

Lemma laid_out_branch_descends_witness :
  ∃ parent child,
    two_children !! "root" = Some parent
    ∧ two_children !! "node-6" = Some child
    ∧ (endY child == startY parent + (60 # 1))%Q.
Proof.
  destruct (two_children !! "root") as [np|] eqn:Hp; [|by vm_compute in Hp].
  destruct (two_children !! "node-6") as [nc|] eqn:Hc; [|by vm_compute in Hc].
  exists np, nc. split; [reflexivity|]. split; [reflexivity|].
  destruct (laid_out_branch_descends two_children two_children
              two_children_tree "root" "node-6" np nc) as (_ & _ & H & _).
  - apply two_children_is_tree.
  - by vm_compute.
  - exact Hp.
  - vm_compute in Hp. injection Hp as <-. compute_done.
  - exact Hc.
  - exact H.
Defined.

(** ** A parent of leaves *)

(** Children that are all leaves take consecutive slots: what their
    midpoints add up to, where the cursor ends, and where the last one
    is. *)
Lemma PlacedKids_leaves (m : Nodes) (ks : list rtree) :
  Forall (fun k => kids k = []) ks →
  ∀ s lvl mids e,
    PlacedKids childPosition m ks s lvl mids e →
    let N := inject_Z (Z.of_nat (length ks)) in
    length mids = length ks
    ∧ (fold_left Qplus mids (0 # 1)
       == N * s + (100 # 1) * N * (N - (1 # 1)))%Q
    ∧ (∀ k, last ks = Some k →
         ∃ n, m !! rid k = Some n
              ∧ (x n == s + (200 # 1) * (N - (1 # 1)))%Q).
Proof.
  induction 1 as [|k ks Hk Hks IH]; intros s lvl mids e Hp N.
  - inversion Hp; subst. subst N. simpl. split; [done|].
    split; [ring|]. intros k [=].
  - inversion Hp as [|? ? ? ? e1 mids' ? Hpk Hrest]; subst.
    destruct k as [i ks0]. simpl in Hk. subst ks0.
    inversion Hpk as [? n ? ? Hn Hx _ _|]; subst.
    destruct (IH _ _ _ _ Hrest) as (Hlen & Hsum & Hlast).
    subst N. set (N' := inject_Z (Z.of_nat (length ks))) in *.
    assert (inject_Z (Z.of_nat (length (RNode i [] :: ks)))
            == N' + (1 # 1))%Q as HN by apply inject_length_cons.
    split; [simpl; by rewrite Hlen|]. split.
    + simpl fold_left. rewrite fold_left_Qplus_acc, Hsum, HN.
      unfold childPosition, NODE_SPACING. field.
    + intros k Hk. destruct ks as [|k' ks'].
      * simpl in Hk. injection Hk as <-. exists n. split; [done|].
        rewrite Hx, HN. subst N'. simpl. ring.
      * destruct (Hlast k) as (nl & Hnl & Hxl); [exact Hk|].
        exists nl. split; [done|]. rewrite Hxl, HN.
        unfold NODE_SPACING. ring.
Qed.

Lemma leaf_children_centred (m' : Nodes) (p : string) (np : VideoNode)
    (ks : list rtree) s lvl e (first : string) (nf nl : VideoNode)
    (lastc : string) :
  Placed childPosition m' (RNode p ks) s lvl e →
  m' !! p = Some np →
  Forall (fun k => kids k = []) ks →
  head (rid <$> ks) = Some first → last (rid <$> ks) = Some lastc →
  m' !! first = Some nf → m' !! lastc = Some nl →
  (x np == (x nf + x nl) / (2 # 1))%Q.
Proof.
  intros Hplaced Hp Hleaves Hfirst Hlast Hnf Hnl.
  inversion Hplaced as [|? np' k ks' ? ? mids ? Hp' Hkids Hx]; subst.
  { discriminate Hfirst. }
  assert (np' = np) as -> by congruence.
  destruct (PlacedKids_leaves m' _ Hleaves _ _ _ _ Hkids)
    as (Hlen & Hsum & Hl).
  rewrite fmap_last in Hlast.
  destruct (last (k :: ks')) as [kl|] eqn:Hkl; [|done].
  simpl in Hlast. injection Hlast as <-.
  destruct (Hl kl eq_refl) as (nl' & Hnl' & Hxl).
  assert (nl' = nl) as -> by congruence.
  simpl in Hfirst. injection Hfirst as <-.
  inversion Hkids as [|? ? ? ? e1 mids' ? Hpk _]; subst.
  apply Placed_span in Hpk as Hspan.
  destruct k as [i ks0]. apply Forall_cons in Hleaves as [Hk0 _].
  simpl in Hk0. subst ks0.
  inversion Hpk as [? nf' ? ? Hnf' Hxf _ _|]; subst.
  simpl in Hnf. assert (nf' = nf) as -> by congruence.
  rewrite Hx, Hxl, Hxf. unfold mean.
  rewrite Hsum, Hlen.
  set (N := inject_Z (Z.of_nat (length (RNode i [] :: ks')))).
  assert (¬ N == 0)%Q as HN.
  { subst N. rewrite inject_length_cons.
    assert (0 <= inject_Z (Z.of_nat (length ks')))%Q.
    { change (0 # 1)%Q with (inject_Z 0). rewrite <- Zle_Qle. lia. }
    lra. }
  field. exact HN.
Qed.

(** X13: after a layout pass over a tree, a node whose children are all
    leaves is centred over them: its x is the mean of the x of its first
    and of its last child. *)
Theorem parent_centred_over_leaves
    (nodesMap nodesMap' : Nodes) (t : rtree) (p first lastc : string)
    (parent nf nl : VideoNode) :
  IsTree nodesMap t → recalculateLayout nodesMap = Some nodesMap' →
  nodesMap' !! p = Some parent →
  (∀ c, c ∈ children parent →
        ∃ nc, nodesMap' !! c = Some nc ∧ children nc = []) →
  head (children parent) = Some first →
  last (children parent) = Some lastc →
  nodesMap' !! first = Some nf → nodesMap' !! lastc = Some nl →
  (x parent == (x nf + x nl) / (2 # 1))%Q.
Proof.
  intros Htree Hlayout Hp Hleaves Hfirst Hlast Hnf Hnl.
  destruct (laid_out_family _ _ _ _ _ Htree Hlayout Hp)
    as (ks & s & lvl & e & Hcs & Hshapes & Hplaced).
  rewrite Hcs in Hfirst, Hlast.
  eapply leaf_children_centred; eauto.
  rewrite Forall_forall in Hshapes. apply Forall_forall. intros k Hk.
  destruct (Hleaves (rid k)) as (nc & Hnc & Hkids).
  { rewrite Hcs. apply list_elem_of_fmap. eauto. }
  specialize (Hshapes k Hk).
  inversion Hshapes as [i n ks0 Hn Hcs0 _]; subst. simpl in *.
  assert (n = nc) as -> by congruence.
  rewrite Hkids in Hcs0. symmetry in Hcs0. by apply fmap_nil_inv in Hcs0.
Qed.

Lemma parent_centred_over_leaves_witness :
  ∃ parent nf nl,
    two_children !! "root" = Some parent
    ∧ two_children !! "node-5" = Some nf
    ∧ two_children !! "node-6" = Some nl
    ∧ (x parent == (x nf + x nl) / (2 # 1))%Q.
Proof.
  destruct (two_children !! "root") as [np|] eqn:Hp; [|by vm_compute in Hp].
  destruct (two_children !! "node-5") as [nf|] eqn:Hf; [|by vm_compute in Hf].
  destruct (two_children !! "node-6") as [nl|] eqn:Hl; [|by vm_compute in Hl].
  exists np, nf, nl. split; [reflexivity|]. split; [reflexivity|].
  split; [reflexivity|].
  assert (children np = ["node-5"; "node-6"]) as Hkids.
  { vm_compute in Hp. by injection Hp as <-. }
  apply (parent_centred_over_leaves two_children two_children
           two_children_tree "root" "node-5" "node-6" np nf nl).
  - apply two_children_is_tree.
  - by vm_compute.
  - exact Hp.
  - intros c Hc. rewrite Hkids in Hc.
    apply elem_of_cons in Hc as [->|Hc].
    + exists nf. split; [exact Hf|].
      vm_compute in Hf. by injection Hf as <-.
    + apply list_elem_of_singleton in Hc as ->.
      exists nl. split; [exact Hl|].
      vm_compute in Hl. by injection Hl as <-.
  - by rewrite Hkids.
  - by rewrite Hkids.
  - exact Hf.
  - exact Hl.
Defined.

(** X14: after a layout pass over a tree, a node with a single child that
    is a leaf is placed exactly above it, and the connector between them
    is the straight segment "M x y+80 L x y-80" of the near-vertical
    case. *)
Theorem only_leaf_child_straight
    (nodesMap nodesMap' : Nodes) (t : rtree) (p c : string)
    (parent child : VideoNode) :
  IsTree nodesMap t → recalculateLayout nodesMap = Some nodesMap' →
  nodesMap' !! p = Some parent → children parent = [c] →
  nodesMap' !! c = Some child → children child = [] →
  (x parent == x child)%Q
  ∧ calculateBranchPath parent child =
      [ Lit "M "; Num (x parent); Lit " "; Num (y parent + (80 # 1))%Q;
        Lit " L "; Num (x child); Lit " "; Num (y child - (80 # 1))%Q ].
Proof.
  intros Htree Hlayout Hp Hkids Hc Hleaf.
  destruct (laid_out_family _ _ _ _ _ Htree Hlayout Hp)
    as (ks & s & lvl & e & Hcs & Hshapes & Hplaced).
  assert (x parent == x child)%Q as Hx.
  { assert (x parent == (x child + x child) / (2 # 1))%Q as H;
      [|rewrite H; field].
    eapply leaf_children_centred; eauto.
    - rewrite Forall_forall in Hshapes. apply Forall_forall. intros k Hk.
      assert (rid k = c) as Hrid.
      { assert (rid k ∈ children parent) as Hin
          by (rewrite Hcs; apply list_elem_of_fmap; eauto).
        rewrite Hkids in Hin. by apply list_elem_of_singleton in Hin. }
      specialize (Hshapes k Hk).
      inversion Hshapes as [i n ks0 Hn Hcs0 _]; subst. simpl in *.
      assert (n = child) as -> by congruence.
      rewrite Hleaf in Hcs0. symmetry in Hcs0.
      by apply fmap_nil_inv in Hcs0.
    - by rewrite <- Hcs, Hkids.
    - by rewrite <- Hcs, Hkids. }
  split; [done|]. unfold calculateBranchPath.
  destruct (Qlt_le_dec _ _) as [_|Hfar]; [done|]. exfalso.
  unfold endX, startX in Hfar. rewrite Hx in Hfar.
  assert (Qabs (x child - x child) == 0)%Q as H0.
  { assert (x child - x child == 0)%Q as -> by ring. reflexivity. }
  rewrite H0 in Hfar. by vm_compute in Hfar.
Qed.

Lemma only_leaf_child_straight_witness :
  ∃ parent child,
    one_child !! "root" = Some parent ∧ one_child !! "node-5" = Some child
    ∧ (x parent == x child)%Q.
Proof.
  destruct (one_child !! "root") as [np|] eqn:Hp; [|by vm_compute in Hp].
  destruct (one_child !! "node-5") as [nc|] eqn:Hc; [|by vm_compute in Hc].
  exists np, nc. split; [reflexivity|]. split; [reflexivity|].
  apply (only_leaf_child_straight one_child one_child one_child_tree
           "root" "node-5" np nc).
  - apply one_child_is_tree.
  - by vm_compute.
  - exact Hp.
  - vm_compute in Hp. by injection Hp as <-.
  - exact Hc.
  - vm_compute in Hc. by injection Hc as <-.
Defined.

(** * Canvas and scroll position *)

Lemma maxList_bounds (numbers : list Q) :
  match maxList numbers with
  | None => numbers = []
  | Some mx => Forall (fun q => q <= mx)%Q numbers
               ∧ Exists (fun q => q == mx)%Q numbers
  end.
Proof.
  induction numbers as [|q l IH]; [done|]. simpl.
  destruct (maxList l) as [a|].
  - destruct IH as [Hall Hex]. split.
    + constructor; [apply Q.le_max_l|].
      eapply Forall_impl; [exact Hall|]. simpl. intros q' Hq'.
      eapply Qle_trans; [exact Hq'|apply Q.le_max_r].
    + destruct (Q.max_spec_le q a) as [[_ Heq]|[_ Heq]].
      * apply Exists_cons_tl. eapply Exists_impl; [exact Hex|].
        simpl. intros q' Hq'. by rewrite Heq.
      * apply Exists_cons_hd. by rewrite Heq.
  - subst l. split; [|by left]. constructor; [apply Qle_refl|constructor].
Qed.

Lemma maxOf_bounds (f : VideoNode → Q) (nodes : Nodes) (j : string)
    (n : VideoNode) :
  nodes !! j = Some n →
  ∃ mx, maxOf f nodes = Some mx ∧ (f n <= mx)%Q
        ∧ ∃ j' n', nodes !! j' = Some n' ∧ (f n' == mx)%Q.
Proof.
  intros Hn. unfold maxOf.
  assert (f n ∈ f <$> (map_to_list nodes).*2) as Hin.
  { apply list_elem_of_fmap. exists n. split; [done|].
    apply list_elem_of_fmap. exists (j, n). split; [done|].
    by apply elem_of_map_to_list. }
  pose proof (maxList_bounds (f <$> (map_to_list nodes).*2)) as Hb.
  destruct (maxList _) as [mx|].
  - destruct Hb as [Hall Hex]. exists mx. split; [done|]. split.
    + rewrite Forall_forall in Hall. by apply Hall.
    + apply Exists_exists in Hex as (q & Hq & Hqm).
      apply list_elem_of_fmap in Hq as (n' & -> & Hn').
      apply list_elem_of_fmap in Hn' as ([j' n''] & -> & Hjn).
      apply elem_of_map_to_list in Hjn. eauto.
  - rewrite Hb in Hin. by apply elem_of_nil in Hin.
Qed.

(** X15: the canvas is at least 1200 by 800 and holds every node of the
    mapping with a margin: x + 400 <= width and y + 300 <= height. *)
Theorem canvas_contains_nodes (nodes : Nodes) (j : string) (n : VideoNode) :
  nodes !! j = Some n →
  (x n + (400 # 1) <= canvasWidth nodes)%Q
  ∧ (y n + (300 # 1) <= canvasHeight nodes)%Q
  ∧ (1200 # 1 <= canvasWidth nodes)%Q
  ∧ (800 # 1 <= canvasHeight nodes)%Q.
Proof.
  intros Hn.
  destruct (maxOf_bounds x nodes j n Hn) as (mx & Hmx & Hx & _).
  destruct (maxOf_bounds y nodes j n Hn) as (my & Hmy & Hy & _).
  unfold canvasWidth, canvasHeight. rewrite Hmx, Hmy.
  pose proof (Q.le_max_l (1200 # 1) (mx + (400 # 1))).
  pose proof (Q.le_max_r (1200 # 1) (mx + (400 # 1))).
  pose proof (Q.le_max_l (800 # 1) (my + (300 # 1))).
  pose proof (Q.le_max_r (800 # 1) (my + (300 # 1))).
  repeat split; try done; lra.
Qed.

Lemma canvas_contains_nodes_witness :
  ((600 # 1) + (400 # 1) <= canvasWidth reset)%Q.
Proof.
  exact (proj1 (canvas_contains_nodes reset "root" root_node eq_refl)).
Defined.

(** X16: when some node has x > 0 and some node has y > 0, the effect
    assigns [scrollLeft]; the value is never negative, it is 0 when the
    container is at least maxX + 400 wide, and half of the excess
    maxX + 400 - offsetWidth otherwise. *)
Theorem scroll_only_when_wider
    (nodes : Nodes) (offsetWidth : Z) (j j' : string) (n n' : VideoNode) :
  nodes !! j = Some n → (0 < x n)%Q →
  nodes !! j' = Some n' → (0 < y n')%Q →
  ∃ maxX scrollX,
    maxOf x nodes = Some maxX
    ∧ scrollTarget nodes offsetWidth = Some scrollX
    ∧ (0 <= scrollX)%Q
    ∧ (maxX + (400 # 1) <= inject_Z offsetWidth → scrollX == 0)%Q
    ∧ (inject_Z offsetWidth < maxX + (400 # 1) →
       scrollX == (maxX + (400 # 1) - inject_Z offsetWidth) / (2 # 1))%Q.
Proof.
  intros Hn Hx Hn' Hy.
  destruct (maxOf_bounds x nodes j n Hn) as (mx & Hmx & Hxle & _).
  destruct (maxOf_bounds y nodes j' n' Hn') as (my & Hmy & Hyle & _).
  unfold scrollTarget. rewrite Hmx, Hmy.
  destruct (Qlt_le_dec 0 mx) as [_|Hbad]; [|lra].
  destruct (Qlt_le_dec 0 my) as [_|Hbad]; [|lra].
  eexists _, _. split; [done|]. split; [done|].
  set (v := (mx / (2 # 1) + (200 # 1) - inject_Z offsetWidth / (2 # 1))%Q).
  assert (v == (mx + (400 # 1) - inject_Z offsetWidth) / (2 # 1))%Q as Hv
    by (unfold v; field).
  split; [apply Q.le_max_l|]. split.
  - intros Hfit. apply Q.max_l. rewrite Hv.
    apply Qle_shift_div_r; [reflexivity|]. lra.
  - intros Hwide. rewrite <- Hv. apply Q.max_r. rewrite Hv.
    apply Qle_shift_div_l; [reflexivity|]. lra.
Qed.

Lemma scroll_only_when_wider_witness :
  ∃ maxX scrollX,
    maxOf x reset = Some maxX
    ∧ scrollTarget reset 1280 = Some scrollX ∧ (0 <= scrollX)%Q.
Proof.
  destruct (scroll_only_when_wider reset 1280 "root" "root"
              root_node root_node) as (mx & sx & Hmx & Hsx & Hpos & _);
    [reflexivity|reflexivity|reflexivity|reflexivity|].
  exists mx, sx. split; [exact Hmx|]. split; [exact Hsx|exact Hpos].
Defined.

(** * The component without layout engine: sibling offsets *)

(** The offset of the new child, in units of 150, by the number of
    children the parent already has. *)
Lemma fixed_offset_apart (k1 k2 : nat) :
  k1 ≠ k2 →
  let o (k : nat) : Z :=
    (if decide (k = 0%nat) then 0
     else if decide ((k mod 2)%nat = 0%nat) then -150 else 150)
    * (Z.of_nat (k / 2) + 1) in
  o k1 + 150 ≤ o k2 ∨ o k2 + 150 ≤ o k1.
Proof.
  intros Hne o. subst o. cbv beta.
  pose proof (Nat.div_mod_eq k1 2) as H1.
  pose proof (Nat.div_mod_eq k2 2) as H2.
  pose proof (Nat.mod_upper_bound k1 2) as B1.
  pose proof (Nat.mod_upper_bound k2 2) as B2.
  repeat case_decide; lia.
Qed.

(** X17 (src/components/VideoTreeBuilder.tsx): a parent that stays where
    it is never gives two of its children the same place: the children
    added when it had different numbers of children are at least 150
    apart in x, both 180 below the parent. *)
Theorem fixed_offset_siblings_apart
    (nodes1 nodes2 : gmap string FixedOffset.VideoNode) (p : string)
    (parent1 parent2 : FixedOffset.VideoNode) (now1 now2 : Z) :
  nodes1 !! p = Some parent1 → nodes2 !! p = Some parent2 →
  (FixedOffset.x parent1 == FixedOffset.x parent2)%Q →
  length (FixedOffset.children parent1)
  ≠ length (FixedOffset.children parent2) →
  ∃ nodes1' nodes2' c1 c2,
    FixedOffset.addChildNode nodes1 p now1 = Some nodes1'
    ∧ FixedOffset.addChildNode nodes2 p now2 = Some nodes2'
    ∧ nodes1' !! newIdAt now1 = Some c1
    ∧ nodes2' !! newIdAt now2 = Some c2
    ∧ ((FixedOffset.x c1 + (150 # 1) <= FixedOffset.x c2)%Q
       ∨ (FixedOffset.x c2 + (150 # 1) <= FixedOffset.x c1)%Q)
    ∧ (FixedOffset.y c1 == FixedOffset.y parent1 + (180 # 1))%Q
    ∧ (FixedOffset.y c2 == FixedOffset.y parent2 + (180 # 1))%Q.
Proof.
  intros Hp1 Hp2 Hx Hne.
  unfold FixedOffset.addChildNode. rewrite Hp1, Hp2.
  eexists _, _, _, _. split; [done|]. split; [done|].
  rewrite !lookup_insert_eq. split; [done|]. split; [done|].
  cbn [FixedOffset.x FixedOffset.y]. split; [|split; reflexivity].
  set (k1 := length (FixedOffset.children parent1)) in *.
  set (k2 := length (FixedOffset.children parent2)) in *.
  pose proof (fixed_offset_apart k1 k2 Hne) as Hapart. cbv zeta beta in Hapart.
  assert (∀ k : nat,
    ((if decide (k = 0%nat) then 0 # 1
      else if decide ((k mod 2)%nat = 0%nat) then -150 # 1 else 150 # 1)
     * inject_Z (Z.of_nat (k / 2) + 1)
     == inject_Z ((if decide (k = 0%nat) then 0
                   else if decide ((k mod 2)%nat = 0%nat) then -150
                        else 150) * (Z.of_nat (k / 2) + 1)))%Q) as Hinj.
  { intros k. rewrite inject_Z_mult. repeat case_decide; reflexivity. }
  rewrite !Hinj, Hx.
  destruct Hapart as [H|H]; [left|right];
    rewrite Zle_Qle, inject_Z_plus in H;
    change (inject_Z 150) with (150 # 1)%Q in H; lra.
Qed.

Lemma fixed_offset_siblings_apart_witness :
  ∃ nodes1 nodes1' nodes2' c1 c2 parent,
    fixed_one_child = Some nodes1
    ∧ nodes1 !! "root" = Some parent
    ∧ FixedOffset.addChildNode FixedOffset.reset "root" 5 = Some nodes1'
    ∧ FixedOffset.addChildNode nodes1 "root" 6 = Some nodes2'
    ∧ nodes1' !! newIdAt 5 = Some c1
    ∧ nodes2' !! newIdAt 6 = Some c2
    ∧ ((FixedOffset.x c1 + (150 # 1) <= FixedOffset.x c2)%Q
       ∨ (FixedOffset.x c2 + (150 # 1) <= FixedOffset.x c1)%Q).
Proof.
  destruct fixed_one_child as [nodes1|] eqn:H1; [|by vm_compute in H1].
  destruct (nodes1 !! "root") as [parent|] eqn:Hp.
  2:{ vm_compute in H1. injection H1 as <-. by vm_compute in Hp. }
  destruct (fixed_offset_siblings_apart FixedOffset.reset nodes1 "root"
              FixedOffset.root_node parent 5 6)
    as (n1' & n2' & c1 & c2 & Ha1 & Ha2 & Hc1 & Hc2 & Hapart & _).
  - reflexivity.
  - exact Hp.
  - vm_compute in H1. injection H1 as <-. vm_compute in Hp.
    injection Hp as <-. reflexivity.
  - vm_compute in H1. injection H1 as <-. vm_compute in Hp.
    injection Hp as <-. simpl. lia.
  - exists nodes1, n1', n2', c1, c2, parent. repeat split; assumption.
Defined.

(** * Attaching media *)

(** X18: attaching a video to a node that already has one replaces it:
    two attachments in a row leave the mapping that the second alone
    would leave, with the second URL on the node. *)
Theorem handleFileSelect_reattach
    (prev : Nodes) (nodeId : string) (n : VideoNode) (f1 f2 : File)
    (url1 url2 : string) :
  prev !! nodeId = Some n →
  String.prefix "video/" (type f1) = true →
  String.prefix "video/" (type f2) = true →
  let once := commit prev (handleFileSelect prev nodeId (Some f1) url1) in
  let twice := commit once (handleFileSelect once nodeId (Some f2) url2) in
  twice = commit prev (handleFileSelect prev nodeId (Some f2) url2)
  ∧ videoUrl <$> twice !! nodeId = Some (Some url2).
Proof.
  intros Hn H1 H2. cbv zeta. unfold handleFileSelect.
  rewrite H1, H2, Hn. simpl. rewrite lookup_insert_eq. simpl.
  rewrite insert_insert_eq. split; [done|]. by rewrite lookup_insert_eq.
Qed.

Lemma handleFileSelect_reattach_witness :
  videoUrl <$>
    commit (commit reset
              (handleFileSelect reset "root"
                 (Some {| type := "video/mp4" |}) "blob:1"))
      (handleFileSelect
         (commit reset
            (handleFileSelect reset "root"
               (Some {| type := "video/mp4" |}) "blob:1"))
         "root" (Some {| type := "video/webm" |}) "blob:2") !! "root"
  = Some (Some "blob:2").
Proof.
  exact (proj2 (handleFileSelect_reattach reset "root" root_node
                  {| type := "video/mp4" |} {| type := "video/webm" |}
                  "blob:1" "blob:2" eq_refl eq_refl eq_refl)).
Defined.

(** * Attaching media and laying out commute *)

Lemma Relaid_Alike (m m' : Nodes) : Relaid m m' → Alike m m'.
Proof.
  intros H j. specialize (H j).
  inversion H as [? ? (_ & _ & _ & _ & ?)|]; by constructor.
Qed.

Lemma Alike_sym (m m' : Nodes) : Alike m m' → Alike m' m.
Proof. intros H j. specialize (H j). inversion H; by constructor. Qed.

Lemma Alike_trans (m1 m2 m3 : Nodes) : Alike m1 m2 → Alike m2 m3 → Alike m1 m3.
Proof.
  intros H12 H23 j. specialize (H12 j). specialize (H23 j).
  inversion H12; inversion H23; subst; try congruence; constructor.
  congruence.
Qed.

Lemma Alike_passes (m1 m2 m1' m2' : Nodes) :
  Alike m1 m2 → Relaid m1 m1' → Relaid m2 m2' → Alike m1' m2'.
Proof.
  intros H Hr1 Hr2. eapply Alike_trans; [|by apply Relaid_Alike].
  eapply Alike_trans; [|exact H]. by apply Alike_sym, Relaid_Alike.
Qed.

Lemma Agree_place_alike (m1 m2 : Nodes) (i : string) (vx : Q) (lvl : Z) :
  Alike m1 m2 →
  Agree m1 m2 (alter (fun n => place n vx lvl) i m1)
              (alter (fun n => place n vx lvl) i m2).
Proof.
  intros Hal j. destruct (decide (i = j)) as [->|Hne].
  - right. rewrite !lookup_alter_eq. specialize (Hal j).
    inversion Hal; done.
  - left. by rewrite !lookup_alter_ne.
Qed.

Lemma layoutChildren_agree_alike
    (layout : string → Nodes → Q → option (Nodes * Q)) :
  (∀ c m1 m2 cur m1' e,
     Alike m1 m2 → layout c m1 cur = Some (m1', e) →
     ∃ m2', layout c m2 cur = Some (m2', e) ∧ Agree m1 m2 m1' m2'
            ∧ Alike m1' m2') →
  ∀ ks m1 m2 cur acc m1' e mids,
    Alike m1 m2 →
    layoutChildren layout ks m1 cur acc = Some (m1', e, mids) →
    ∃ m2', layoutChildren layout ks m2 cur acc = Some (m2', e, mids)
           ∧ Agree m1 m2 m1' m2' ∧ Alike m1' m2'.
Proof.
  intros Hlayout ks.
  induction ks as [|c ks IH]; intros m1 m2 cur acc m1' e mids Hal.
  - simpl. intros [= <- <- <-]. exists m2.
    split; [done|]. split; [apply Agree_refl|done].
  - simpl. destruct (layout c m1 cur) as [[m1a ea]|] eqn:Hc; [|done].
    intros Hrest.
    destruct (Hlayout _ _ _ _ _ _ Hal Hc) as (m2a & Hc2 & Hag & Hala).
    destruct (IH _ _ _ _ _ _ _ Hala Hrest) as (m2' & Hrest2 & Hag' & Hal').
    exists m2'. rewrite Hc2. split; [done|].
    split; [by eapply Agree_trans|done].
Qed.

Lemma calculateTreeLayout_agree_alike (fuel : nat) :
  ∀ i m1 m2 s lvl m1' e,
    Alike m1 m2 →
    calculateTreeLayout fuel i m1 s lvl = Some (m1', e) →
    ∃ m2', calculateTreeLayout fuel i m2 s lvl = Some (m2', e)
           ∧ Agree m1 m2 m1' m2' ∧ Alike m1' m2'.
Proof.
  induction fuel as [|fuel IH]; intros i m1 m2 s lvl m1' e Hal; [done|].
  rewrite !calculateTreeLayout_unfold.
  pose proof (Hal i) as Hi.
  destruct Hi as [n1 n2 Hkids|].
  - rewrite <- Hkids.
    destruct (children n1) as [|c cs] eqn:Hcs.
    + intros [= <- <-]. eexists. split; [done|].
      split; [by apply Agree_place_alike|].
      eapply Alike_passes; [exact Hal|apply Relaid_place..].
    + destruct (layoutChildren _ _ m1 _ _) as [[[m1a ea] mids]|] eqn:Hloop;
        [|done].
      intros [= <- <-].
      destruct (layoutChildren_agree_alike _
                  (fun c m1 m2 cur m1' e => IH c m1 m2 cur (lvl + 1) m1' e)
                  _ _ _ _ _ _ _ _ Hal Hloop)
        as (m2a & Hloop2 & Hag & Hala).
      rewrite Hloop2. eexists. split; [done|]. split.
      * eapply Agree_trans; [exact Hag|by apply Agree_place_alike].
      * eapply Alike_passes; [exact Hala|apply Relaid_place..].
  - intros [= <- <-]. exists m2. split; [done|].
    split; [apply Agree_refl|done].
Qed.

Lemma attach_as_alter (m : Nodes) (i : string) (n : VideoNode) (url : string) :
  m !! i = Some n →
  <[i := with_videoUrl n url]> m = alter (fun n => with_videoUrl n url) i m.
Proof.
  intros Hn. apply map_eq. intros j. destruct (decide (i = j)) as [->|Hne].
  - by rewrite lookup_insert_eq, lookup_alter_eq, Hn.
  - by rewrite lookup_insert_ne, lookup_alter_ne.
Qed.

Lemma attach_Alike (m : Nodes) (i : string) (url : string) :
  Alike m (alter (fun n => with_videoUrl n url) i m).
Proof.
  intros j. destruct (decide (i = j)) as [->|Hne].
  - rewrite lookup_alter_eq. by destruct (m !! j); constructor.
  - rewrite lookup_alter_ne by done. by destruct (m !! j); constructor.
Qed.

Lemma attach_size (m : Nodes) (i : string) (url : string) :
  size (alter (fun n => with_videoUrl n url) i m) = size m.
Proof.
  rewrite <- !size_dom. f_equal. apply set_eq. intros j.
  rewrite !elem_of_dom. destruct (decide (i = j)) as [->|Hne].
  - rewrite lookup_alter_eq. by rewrite fmap_is_Some.
  - by rewrite lookup_alter_ne.
Qed.

Lemma recalculateLayout_attach (m m' : Nodes) (i : string) (url : string) :
  recalculateLayout m = Some m' →
  recalculateLayout (alter (fun n => with_videoUrl n url) i m)
  = Some (alter (fun n => with_videoUrl n url) i m').
Proof.
  unfold recalculateLayout. intros H.
  destruct (calculateTreeLayout _ _ m _ _) as [[m1 e]|] eqn:Hcall; [|done].
  simpl in H. injection H as <-.
  destruct (calculateTreeLayout_agree_alike _ _ _ _ _ _ _ _
              (attach_Alike m i url) Hcall) as (m2' & Hcall2 & Hag & _).
  rewrite attach_size, Hcall2. simpl. f_equal.
  set (f := fun n => with_videoUrl n url) in *.
  assert (Relaid m m1) as Hr1 by (by eapply calculateTreeLayout_relaid).
  assert (Relaid (alter f i m) m2') as Hr2
    by (by eapply calculateTreeLayout_relaid).
  apply map_eq. intros j. specialize (Hag j). specialize (Hr1 j).
  specialize (Hr2 j).
  destruct (decide (i = j)) as [->|Hne].
  - rewrite lookup_alter_eq in Hag, Hr2 |- *.
    destruct Hag as [[Ha Hb]|Hc]; [by rewrite Hb, Ha|].
    destruct Hr1 as [a a' Hs1|]; simpl in *.
    + inversion Hr2 as [? b' Hs2 Heq1 Heq2|]; subst.
      rewrite <- Heq2 in Hc. simpl in Hc. apply (inj Some) in Hc.
      f_equal. destruct a, a', b'. unfold same_links, coords, f in *.
      simpl in *. destruct Hs1 as (?&?&?&?&?), Hs2 as (?&?&?&?&?).
      injection Hc as ? ? ?. by subst.
    + by inversion Hr2.
  - rewrite lookup_alter_ne in Hag, Hr2 |- * by done.
    destruct Hag as [[Ha Hb]|Hc]; [by rewrite Hb, Ha|].
    destruct Hr1 as [a a' Hs1|].
    + inversion Hr2 as [? b' Hs2 Heq1 Heq2|]; subst.
      rewrite <- Heq2 in Hc. simpl in Hc. apply (inj Some) in Hc.
      f_equal. symmetry. apply same_links_coords; [|done].
      eapply same_links_trans; [apply same_links_sym; exact Hs1|exact Hs2].
    + by inversion Hr2.
Qed.

Lemma updatedNodes_attach (m : Nodes) (i p : string) (n parent : VideoNode)
    (url : string) (now : Z) :
  m !! i = Some n → m !! p = Some parent → i ≠ newIdAt now →
  ∃ parent',
    alter (fun n => with_videoUrl n url) i m !! p = Some parent'
    ∧ updatedNodes (alter (fun n => with_videoUrl n url) i m) p parent' now
      = alter (fun n => with_videoUrl n url) i (updatedNodes m p parent now).
Proof.
  intros Hn Hp Hic.
  exists (if decide (i = p) then with_videoUrl parent url else parent).
  split.
  - destruct (decide (i = p)) as [->|Hne].
    + by rewrite lookup_alter_eq, Hp.
    + by rewrite lookup_alter_ne.
  - unfold updatedNodes. rewrite attach_size. apply map_eq. intros j.
    destruct (decide (j = newIdAt now)) as [->|Hjc].
    + rewrite lookup_alter_ne, !lookup_insert_eq by done.
      by destruct (decide (i = p)).
    + rewrite lookup_insert_ne by done.
      destruct (decide (j = p)) as [->|Hjp].
      * rewrite lookup_insert_eq.
        destruct (decide (i = p)) as [->|Hip].
        -- by rewrite lookup_alter_eq, lookup_insert_ne, lookup_insert_eq.
        -- by rewrite lookup_alter_ne, lookup_insert_ne, lookup_insert_eq.
      * rewrite lookup_insert_ne by done.
        destruct (decide (i = j)) as [->|Hij].
        -- by rewrite !lookup_alter_eq, !lookup_insert_ne.
        -- by rewrite !lookup_alter_ne, !lookup_insert_ne.
Qed.

(** X19: attaching a video and adding a child commute.  When [addChild]
    succeeds and the new id is not the id of the node that gets the video,
    attaching first and adding then gives the mapping that adding first and
    attaching then gives; in particular no coordinate depends on whether a
    node has a video. *)
Theorem attach_commutes_with_addChild
    (nodes nodes1 : Nodes) (nodeId p : string) (n : VideoNode)
    (file : File) (url : string) (now : Z) :
  nodes !! nodeId = Some n →
  nodeId ≠ newIdAt now →
  String.prefix "video/" (type file) = true →
  addChildNode nodes p now = SetNodes nodes1 →
  addChildNode
    (commit nodes (handleFileSelect nodes nodeId (Some file) url)) p now
  = SetNodes
      (commit nodes1 (handleFileSelect nodes1 nodeId (Some file) url)).
Proof.
  intros Hn Hic Hty Hadd.
  destruct (nodes !! p) as [parent|] eqn:Hp;
    [|by unfold addChildNode in Hadd; rewrite Hp in Hadd].
  rewrite (addChildNode_unfold _ _ _ _ Hp) in Hadd.
  destruct (recalculateLayout (updatedNodes nodes p parent now))
    as [m1|] eqn:Hlayout; [|done].
  injection Hadd as <-.
  assert (is_Some (m1 !! nodeId)) as [n1 Hn1].
  { unfold recalculateLayout in Hlayout.
    destruct (calculateTreeLayout _ _ _ _ _) as [[m2 e]|] eqn:Hcall; [|done].
    simpl in Hlayout. injection Hlayout as <-.
    assert (is_Some (updatedNodes nodes p parent now !! nodeId)) as [n2 Hn2]
      by (apply updatedNodes_keeps; eauto).
    destruct (Relaid_lookup _ _ _ _
                (calculateTreeLayout_relaid _ _ _ _ _ _ _ Hcall) Hn2)
      as (? & ? & _). eauto. }
  unfold handleFileSelect. rewrite Hty, Hn, Hn1. simpl commit.
  rewrite (attach_as_alter _ _ _ url Hn), (attach_as_alter _ _ _ url Hn1).
  destruct (updatedNodes_attach nodes nodeId p n parent url now Hn Hp Hic)
    as (parent' & Hp' & Hupd).
  rewrite (addChildNode_unfold _ _ _ _ Hp'), Hupd.
  by rewrite (recalculateLayout_attach _ _ _ _ Hlayout).
Qed.

Lemma attach_commutes_with_addChild_witness :
  ∃ nodes1,
    addChildNode reset "root" 5 = SetNodes nodes1
    ∧ addChildNode
        (commit reset
           (handleFileSelect reset "root"
              (Some {| type := "video/mp4" |}) "blob:1")) "root" 5
      = SetNodes
          (commit nodes1
             (handleFileSelect nodes1 "root"
                (Some {| type := "video/mp4" |}) "blob:1")).
Proof.
  destruct (addChildNode reset "root" 5) as [nodes1| | |] eqn:Hadd;
    try (by vm_compute in Hadd).
  exists nodes1. split; [reflexivity|].
  apply (attach_commutes_with_addChild reset nodes1 "root" "root" root_node
           {| type := "video/mp4" |} "blob:1" 5).
  - reflexivity.
  - discriminate.
  - reflexivity.
  - exact Hadd.
Defined.
